(** * Web-song-player: the playback sequencer of [src/pages/Index.tsx]

    A shallow embedding of the React component [MusicPlayerPage]: its state
    ([useState] cells), its event handlers (as state transformers) and the
    guards under which the rendered view offers each handler.  The file
    [src/pages/Index.tsx] holds the revision with the play queue; the
    revision without the queue (several playlists, no queue) is embedded in
    [Module NoQueue].

    Numbers are JavaScript numbers holding integers: [Z].  [number | null]
    is [option Z].  Arrays are lists; [a[i]] is [at_index a i], which is
    [None] where JavaScript gives [undefined]. *)

From Stdlib Require Import ZArith Lia Bool Ascii String Sorting.Sorted OrderedTypeEx.
From stdpp Require Import base option list relations.

Local Open Scope Z_scope.

(** ** JavaScript arrays *)

(** [a.length] *)
Definition len {A : Type} (a : list A) : Z := Z.of_nat (length a).

(** [a[i]] for an integer [i]: [undefined] outside [0 .. a.length - 1]. *)
Definition at_index {A : Type} (a : list A) (i : Z) : option A :=
  if i <? 0 then None else a !! Z.to_nat i.

(** [a.slice(1)] *)
Definition slice1 {A : Type} (a : list A) : list A := drop 1 a.

(** [a.filter((_, index) => keep(index))], the indices counted from [i]. *)
Fixpoint filter_index {A : Type} (keep : Z -> bool) (i : Z) (a : list A) : list A :=
  match a with
  | [] => []
  | x :: a' =>
      if keep i then x :: filter_index keep (i + 1) a'
      else filter_index keep (i + 1) a'
  end.

(** [a.sort(compareFn)].  ECMAScript requires the sort to be stable, so for
    a consistent [compareFn] the result is the one of any stable sort; the
    model is insertion sort, an element being placed before the first later
    element it does not exceed. *)
Fixpoint sort_insert {A : Type} (compareFn : A -> A -> Z) (x : A) (a : list A) : list A :=
  match a with
  | [] => [x]
  | y :: a' =>
      if compareFn x y <=? 0 then x :: y :: a'
      else y :: sort_insert compareFn x a'
  end.

Fixpoint Array_sort {A : Type} (compareFn : A -> A -> Z) (a : list A) : list A :=
  match a with
  | [] => []
  | x :: a' => sort_insert compareFn x (Array_sort compareFn a')
  end.

(** ** Data model *)

Record Track := { name : string; url : string }.

(** [type Playlist = { name, tracks }]; the field [name] is [playlistName]
    here, [name] being the field of [Track]. *)
Record Playlist := { playlistName : string; tracks : list Track }.

Record QueuedTrack := { playlistIndex : Z; trackIndex : Z }.

(** The [useState] cells the handlers read and write.  [progress],
    [duration], [currentTime] (engine metrics) and [isLoading] (the upload
    spinner) are written but never read by a handler and are left out. *)
Record State := {
  playlists : list Playlist;
  queue : list QueuedTrack;
  currentPlaylistIndex : option Z;
  currentTrackIndex : option Z;
  isPlaying : bool
}.

(** [useState] initial values. *)
Definition init : State :=
  {| playlists := []; queue := []; currentPlaylistIndex := None;
     currentTrackIndex := None; isPlaying := false |}.

Definition setPlaylists (v : list Playlist) (s : State) : State :=
  {| playlists := v; queue := queue s;
     currentPlaylistIndex := currentPlaylistIndex s;
     currentTrackIndex := currentTrackIndex s; isPlaying := isPlaying s |}.

Definition setQueue (v : list QueuedTrack) (s : State) : State :=
  {| playlists := playlists s; queue := v;
     currentPlaylistIndex := currentPlaylistIndex s;
     currentTrackIndex := currentTrackIndex s; isPlaying := isPlaying s |}.

Definition setCurrentPlaylistIndex (v : option Z) (s : State) : State :=
  {| playlists := playlists s; queue := queue s;
     currentPlaylistIndex := v;
     currentTrackIndex := currentTrackIndex s; isPlaying := isPlaying s |}.

Definition setCurrentTrackIndex (v : option Z) (s : State) : State :=
  {| playlists := playlists s; queue := queue s;
     currentPlaylistIndex := currentPlaylistIndex s;
     currentTrackIndex := v; isPlaying := isPlaying s |}.

Definition setIsPlaying (v : bool) (s : State) : State :=
  {| playlists := playlists s; queue := queue s;
     currentPlaylistIndex := currentPlaylistIndex s;
     currentTrackIndex := currentTrackIndex s; isPlaying := v |}.

(** What a handler makes observable besides the state: the toast of
    [showSuccess], the [console.error] of the upload's [catch], and an
    exception that leaves the handler. *)
Inductive Report :=
| ToastSuccess (message : string)
| ConsoleError (message : string)
| UncaughtTypeError.

Definition is_error (r : Report) : bool :=
  match r with
  | ToastSuccess _ => false
  | ConsoleError _ | UncaughtTypeError => true
  end.

(** The outcome of [JSZip.loadAsync] and of the extraction loop: the archive
    cannot be read, or [audioFiles] as the loop has pushed them. *)
Inductive Archive :=
| Unreadable
| Extracted (audioFiles : list Track).

(** ** Derived values of a render *)

(** [currentPlaylistIndex !== null ? playlists[currentPlaylistIndex] : null] *)
Definition currentPlaylist (s : State) : option Playlist :=
  match currentPlaylistIndex s with
  | Some i => at_index (playlists s) i
  | None => None
  end.

(** [currentPlaylist && currentTrackIndex !== null
      ? currentPlaylist.tracks[currentTrackIndex] : null] *)
Definition currentTrack (s : State) : option Track :=
  match currentPlaylist s, currentTrackIndex s with
  | Some pl, Some t => at_index (tracks pl) t
  | _, _ => None
  end.

(** ** Handlers *)

(** The updater [playNext] passes to [setCurrentTrackIndex]. *)
Definition playNext_updater (currentPlaylist : Playlist) (prevIndex : option Z) : Z :=
  match prevIndex with
  | None => 0
  | Some prevIndex =>
      if prevIndex =? len (tracks currentPlaylist) - 1 then 0 else prevIndex + 1
  end.

(** The updater [playPrevious] passes to [setCurrentTrackIndex]. *)
Definition playPrevious_updater (currentPlaylist : Playlist) (prevIndex : option Z) : Z :=
  match prevIndex with
  | None => len (tracks currentPlaylist) - 1
  | Some prevIndex =>
      if prevIndex =? 0 then len (tracks currentPlaylist) - 1 else prevIndex - 1
  end.

Definition playNext (s : State) : State :=
  if 0 <? len (queue s) then
    match at_index (queue s) 0 with
    | Some nextInQueue =>
        setIsPlaying true
          (setCurrentTrackIndex (Some (trackIndex nextInQueue))
             (setCurrentPlaylistIndex (Some (playlistIndex nextInQueue))
                (setQueue (slice1 (queue s)) s)))
    | None => s (* never: queue[0] exists when queue.length > 0 *)
    end
  else
    match currentPlaylist s with
    | None => s
    | Some pl =>
        setIsPlaying true
          (setCurrentTrackIndex (Some (playNext_updater pl (currentTrackIndex s))) s)
    end.

Definition playPrevious (s : State) : State :=
  match currentPlaylist s with
  | None => s
  | Some pl =>
      setIsPlaying true
        (setCurrentTrackIndex (Some (playPrevious_updater pl (currentTrackIndex s))) s)
  end.

Definition togglePlayPause (s : State) : State :=
  match currentTrackIndex s with
  | None => s
  | Some _ => setIsPlaying (negb (isPlaying s)) s
  end.

Definition selectTrack (index : Z) (s : State) : State :=
  setIsPlaying true (setCurrentTrackIndex (Some index) s).

(** [handlePlaylistChange(indexStr)], at [index = parseInt(indexStr, 10)]:
    the [Select] passes [index.toString()] of a number. *)
Definition handlePlaylistChange (index : Z) (s : State) : State :=
  if negb (bool_decide (Some index = currentPlaylistIndex s)) then
    setIsPlaying true
      (setCurrentTrackIndex (Some 0) (setCurrentPlaylistIndex (Some index) s))
  else s.

(** [addToQueue]: the queue update is enqueued first; reading the track name
    throws when [playlists[playlistIndex]] or the track is [undefined]. *)
Definition addToQueue (playlistIndex trackIndex : Z) (s : State) : State * list Report :=
  let s' :=
    setQueue (queue s ++ [{| playlistIndex := playlistIndex; trackIndex := trackIndex |}]) s in
  match at_index (playlists s) playlistIndex with
  | Some pl =>
      match at_index (tracks pl) trackIndex with
      | Some t => (s', [ToastSuccess ("'" ++ name t ++ "' added to queue")%string])
      | None => (s', [UncaughtTypeError])
      end
  | None => (s', [UncaughtTypeError])
  end.

Definition removeFromQueue (queueIndex : Z) (s : State) : State :=
  setQueue (filter_index (fun index => negb (index =? queueIndex)) 0 (queue s)) s.

(** [handleFileUpload], from the point where the archive has been read;
    [localeCompare] is the host's [String.prototype.localeCompare].  The
    test [currentPlaylistIndex === null] reads the render in which the file
    was chosen; while that value is [null] the library is empty and no
    handler can select anything before the upload settles, so it is the
    value of the state the update is applied to. *)
Definition handleFileUpload (localeCompare : string -> string -> Z)
    (fileName : string) (zip : Archive) (s : State) : State * list Report :=
  match zip with
  | Unreadable => (s, [ConsoleError "Error processing zip file:"])
  | Extracted audioFiles =>
      if 0 <? len audioFiles then
        let newPlaylist :=
          {| playlistName := fileName;
             tracks := Array_sort (fun a b => localeCompare (name a) (name b)) audioFiles |} in
        let updatedPlaylists := playlists s ++ [newPlaylist] in
        match currentPlaylistIndex s with
        | None =>
            (setPlaylists updatedPlaylists
               (setCurrentTrackIndex (Some 0) (setCurrentPlaylistIndex (Some 0) s)), [])
        | Some _ => (setPlaylists updatedPlaylists s, [])
        end
      else (s, [])
  end.

(** The listener of the audio element's ['ended'] event. *)
Definition handleEnded (s : State) : State := playNext s.

(** ** The rendered view: which handler each event reaches, and when

    An event is offered only while the element that carries its handler is
    rendered; the guards are the conditions of the JSX. *)

Inductive Event :=
| FileInput_change (fileName : string) (zip : Archive)
                                  (* <Input type="file" onChange={handleFileUpload}> *)
| Select_change (index : Z)       (* <Select onValueChange={handlePlaylistChange}> *)
| SkipBack_click                  (* onClick={playPrevious} *)
| PlayPause_click                 (* onClick={togglePlayPause} *)
| SkipForward_click               (* onClick={playNext} *)
| TrackRow_click (index : Z)      (* onClick={() => selectTrack(index)} *)
| Plus_click (playlistIndex index : Z)
                                  (* onClick={() => addToQueue(currentPlaylistIndex!, index)} *)
| X_click (index : Z)             (* onClick={() => removeFromQueue(index)} *)
| Audio_ended.                    (* audio.addEventListener('ended', handleEnded);
                                     the audio element may report it in any state *)

Definition in_range {A : Type} (index : Z) (a : list A) : bool :=
  (0 <=? index) && (index <? len a).

Definition rendered (e : Event) (s : State) : bool :=
  match e with
  | FileInput_change _ _ => true
  | Select_change index =>
      (* playlists.length > 1 && currentPlaylistIndex !== null; one item per playlist *)
      (1 <? len (playlists s)) && bool_decide (is_Some (currentPlaylistIndex s))
      && in_range index (playlists s)
  | SkipBack_click | PlayPause_click | SkipForward_click =>
      (* currentPlaylist && currentTrack *)
      bool_decide (is_Some (currentPlaylist s)) && bool_decide (is_Some (currentTrack s))
  | TrackRow_click index =>
      (* currentPlaylist && ...; one row per track of currentPlaylist *)
      match currentPlaylist s with
      | Some pl => in_range index (tracks pl)
      | None => false
      end
  | Plus_click playlistIndex index =>
      match currentPlaylist s with
      | Some pl =>
          bool_decide (currentPlaylistIndex s = Some playlistIndex) && in_range index (tracks pl)
      | None => false
      end
  | X_click index =>
      (* inside the accordion under currentPlaylist &&; one row per queue entry *)
      bool_decide (is_Some (currentPlaylist s)) && in_range index (queue s)
  | Audio_ended => true
  end.

Definition silent (s : State) : State * list Report := (s, []).

Definition dispatch (localeCompare : string -> string -> Z)
    (e : Event) (s : State) : State * list Report :=
  match e with
  | FileInput_change fileName zip => handleFileUpload localeCompare fileName zip s
  | Select_change index => silent (handlePlaylistChange index s)
  | SkipBack_click => silent (playPrevious s)
  | PlayPause_click => silent (togglePlayPause s)
  | SkipForward_click => silent (playNext s)
  | TrackRow_click index => silent (selectTrack index s)
  | Plus_click playlistIndex index => addToQueue playlistIndex index s
  | X_click index => silent (removeFromQueue index s)
  | Audio_ended => silent (handleEnded s)
  end.

(** One transition of the component: a rendered event runs its handler. *)
Definition step (localeCompare : string -> string -> Z) (s s' : State) : Prop :=
  exists e, rendered e s = true /\ (dispatch localeCompare e s).1 = s'.

Definition reachable (localeCompare : string -> string -> Z) (s : State) : Prop :=
  rtc (step localeCompare) init s.

(** The two fields of the selection are both [null] or both set. *)
Definition selection_wf (s : State) : Prop :=
  (currentPlaylistIndex s = None /\ currentTrackIndex s = None)
  \/ (is_Some (currentPlaylistIndex s) /\ is_Some (currentTrackIndex s)).

(** A pair of indices that resolves to a track of the library. *)
Definition valid_pair (s : State) (p t : Z) : Prop :=
  exists pl, at_index (playlists s) p = Some pl /\ is_Some (at_index (tracks pl) t).

(** ** The revision without the queue ([src/unnamed/part_000]) *)

Module NoQueue.

Record State := {
  playlists : list Playlist;
  currentPlaylistIndex : option Z;
  currentTrackIndex : option Z;
  isPlaying : bool
}.

Definition currentPlaylist (s : State) : option Playlist :=
  match currentPlaylistIndex s with
  | Some i => at_index (playlists s) i
  | None => None
  end.

Definition playNext (s : State) : State :=
  match currentPlaylist s with
  | None => s
  | Some pl =>
      {| playlists := playlists s;
         currentPlaylistIndex := currentPlaylistIndex s;
         currentTrackIndex := Some (playNext_updater pl (currentTrackIndex s));
         isPlaying := true |}
  end.

Definition handleFileUpload (localeCompare : string -> string -> Z)
    (fileName : string) (zip : Archive) (s : State) : State :=
  match zip with
  | Unreadable => s
  | Extracted audioFiles =>
      if 0 <? len audioFiles then
        let newPlaylist :=
          {| playlistName := fileName;
             tracks := Array_sort (fun a b => localeCompare (name a) (name b)) audioFiles |} in
        let updatedPlaylists := playlists s ++ [newPlaylist] in
        match currentPlaylistIndex s with
        | None =>
            {| playlists := updatedPlaylists; currentPlaylistIndex := Some 0;
               currentTrackIndex := Some 0; isPlaying := isPlaying s |}
        | Some _ =>
            {| playlists := updatedPlaylists;
               currentPlaylistIndex := currentPlaylistIndex s;
               currentTrackIndex := currentTrackIndex s; isPlaying := isPlaying s |}
        end
      else s
  end.

End NoQueue.

(** The state of the queue revision seen without its queue. *)
Definition without_queue (s : State) : NoQueue.State :=
  {| NoQueue.playlists := playlists s;
     NoQueue.currentPlaylistIndex := currentPlaylistIndex s;
     NoQueue.currentTrackIndex := currentTrackIndex s;
     NoQueue.isPlaying := isPlaying s |}.

(** ** The specification's sequencer, for comparison *)

Inductive Direction := Next | Previous.

Inductive SequencerError := OutOfRange | NoPlaylistSelected | EmptyPlaylist.

(** The wrap-around rule in the specification's words: Next from the last
    track goes to index 0, Previous from index 0 goes to the last track. *)
Definition wrap_around_spec (direction : Direction) (n index : Z) : Z :=
  match direction with
  | Next => if index =? n - 1 then 0 else index + 1
  | Previous => if index =? 0 then n - 1 else index - 1
  end.

(** [advance(direction)] in the specification's words: it requires a
    selection, resolves the selected playlist, moves the track index by the
    wrap-around rule, transitions to Playing, and never looks at the
    queue. *)
Definition advance_spec (direction : Direction) (s : State) : SequencerError + State :=
  match currentPlaylistIndex s, currentTrackIndex s with
  | Some p, Some t =>
      match at_index (playlists s) p with
      | Some pl =>
          inr (setIsPlaying true
                 (setCurrentTrackIndex
                    (Some (wrap_around_spec direction (len (tracks pl)) t)) s))
      | None => inl OutOfRange
      end
  | _, _ => inl NoPlaylistSelected
  end.

(** An operation that fails leaves the state as it was. *)
Definition state_after (s : State) (r : SequencerError + State) : State :=
  match r with
  | inl _ => s
  | inr s' => s'
  end.

(** ** Orders on names *)

Definition Z_of_comparison (c : comparison) : Z :=
  match c with
  | Lt => -1
  | Eq => 0
  | Gt => 1
  end.

Definition is_upper (c : ascii) : bool :=
  let n := N_of_ascii c in (65 <=? n)%N && (n <=? 90)%N.

Definition lower_ascii (c : ascii) : ascii :=
  if is_upper c then ascii_of_N (N_of_ascii c + 32) else c.

Fixpoint lower (s : string) : string :=
  match s with
  | EmptyString => EmptyString
  | String c s' => String (lower_ascii c) (lower s')
  end.

(** The comparison the specification names: lexical, letter case ignored. *)
Definition caseInsensitiveCompare (a b : string) : Z :=
  Z_of_comparison (String.compare (lower a) (lower b)).

Fixpoint case_marks (s : string) : string :=
  match s with
  | EmptyString => EmptyString
  | String c s' => String (if is_upper c then "1" else "0")%char (case_marks s')
  end.

(** A host collation, given as data for the examples: names are ordered by
    their letters first, and letter case decides between names that differ
    in case only, the lowercase letter first.  This is how the default
    collation of [localeCompare] orders plain Latin names. *)
Definition collationKey (s : string) : string :=
  (lower s ++ String "000" (case_marks s))%string.

Definition collate (a b : string) : Z :=
  Z_of_comparison (String.compare (collationKey a) (collationKey b)).

(** What ECMAScript asks of a [compareFn] for the result of [sort] to be
    defined: ties are symmetric, the sign flips with the arguments, and
    "not after" is transitive. *)
Record ConsistentComparator {A : Type} (compareFn : A -> A -> Z) : Prop := {
  cmp_sym : forall a b, compareFn a b = 0 -> compareFn b a = 0;
  cmp_flip : forall a b, 0 < compareFn a b -> compareFn b a < 0;
  cmp_trans : forall a b c, compareFn a b <= 0 -> compareFn b c <= 0 -> compareFn a c <= 0
}.

(** [output] is [input] sorted by [compareFn], elements that tie keeping
    the order they have in [input]. *)
Definition StableSorted {A : Type} (compareFn : A -> A -> Z) (input output : list A) : Prop :=
  StronglySorted (fun x y => compareFn x y <= 0) output
  /\ forall k, filter (fun y => compareFn k y = 0) output
               = filter (fun y => compareFn k y = 0) input.

Definition by_name (compare : string -> string -> Z) (a b : Track) : Z :=
  compare (name a) (name b).

(** ** Example states *)

Definition track (n : string) : Track := {| name := n; url := ("blob:" ++ n)%string |}.

(** One playlist of three tracks, already in the order of [collate]. *)
Definition playlistA : Playlist :=
  {| playlistName := "a.zip";
     tracks := [track "t1.mp3"; track "t2.mp3"; track "t3.mp3"] |}.

(** Playlist A selected at its first track, nothing queued, not playing:
    the state right after the first upload. *)
Definition loaded : State :=
  {| playlists := [playlistA]; queue := []; currentPlaylistIndex := Some 0;
     currentTrackIndex := Some 0; isPlaying := false |}.

(** [loaded] with its third track queued. *)
Definition queued : State :=
  setQueue [{| playlistIndex := 0; trackIndex := 2 |}] loaded.

(** ** The claims as the specification states them, where the code differs *)

(** Manual Next leaves the queue alone and moves by the wrap-around rule. *)
Definition Next_ignores_queue (s : State) : Prop :=
  queue (playNext s) = queue s
  /\ playNext s = state_after s (advance_spec Next s).

(** [enqueue(p, t)] then [popFront()] gives back [(p, t)] and the queue's
    former length. *)
Definition enqueue_pop_returns_entry (s : State) (p t : Z) : Prop :=
  let s' := playNext (addToQueue p t s).1 in
  currentPlaylistIndex s' = Some p /\ currentTrackIndex s' = Some t
  /\ length (queue s') = length (queue s).

(** [selectPlaylist(index)] changes nothing and reports an error. *)
Definition selectPlaylist_rejected (localeCompare : string -> string -> Z)
    (s : State) (index : Z) : Prop :=
  let r := dispatch localeCompare (Select_change index) s in
  currentPlaylistIndex r.1 = currentPlaylistIndex s
  /\ currentTrackIndex r.1 = currentTrackIndex s
  /\ isPlaying r.1 = isPlaying s
  /\ playlists r.1 = playlists s
  /\ existsb is_error r.2 = true.

(** The uploaded playlist is [audioFiles] in a stable sort by
    case-insensitive name. *)
Definition upload_sorted_ignoring_case (localeCompare : string -> string -> Z)
    (fileName : string) (audioFiles : list Track) (s : State) : Prop :=
  exists pl,
    playlists (handleFileUpload localeCompare fileName (Extracted audioFiles) s).1
      = playlists s ++ [pl]
    /\ StableSorted (by_name caseInsensitiveCompare) audioFiles (tracks pl).

(** An upload without audio entries changes no playlist and reports an
    error. *)
Definition empty_upload_reported (localeCompare : string -> string -> Z)
    (fileName : string) (s : State) : Prop :=
  let r := handleFileUpload localeCompare fileName (Extracted []) s in
  playlists r.1 = playlists s /\ existsb is_error r.2 = true.

(** [loaded] at its last track, playing, with the second track queued: the
    state after a click on the third row and then on the add button of the
    second row. *)
Definition lastQueued : State :=
  {| playlists := [playlistA];
     queue := [{| playlistIndex := 0; trackIndex := 1 |}];
     currentPlaylistIndex := Some 0; currentTrackIndex := Some 2;
     isPlaying := true |}.

(** In the playlist [pl] of [n] tracks at track index [i], Next and
    Previous move the track index by the wrap-around rule, whatever the
    queue holds. *)
Definition Next_Previous_wrap (s : State) (pl : Playlist) (i : Z) : Prop :=
  let n := len (tracks pl) in
  (i = n - 1 -> currentTrackIndex (playNext s) = Some 0)
  /\ (i <> n - 1 -> currentTrackIndex (playNext s) = Some (i + 1))
  /\ (i = 0 -> currentTrackIndex (playPrevious s) = Some (n - 1))
  /\ (i <> 0 -> currentTrackIndex (playPrevious s) = Some (i - 1)).

(** ** The entries of the archive

    File names are byte strings.  [toLowerCase] is [lower], which maps the
    letters A to Z: the test below compares the end of the name with
    extensions made of ASCII letters, digits and a dot, and no other
    character is mapped onto one of these. *)

Definition audioExtensions : list string :=
  [".mp3"; ".wav"; ".ogg"; ".m4a"; ".flac"]%string.

(** [s.endsWith(suffix)]: some tail of [s] is [suffix]. *)
Fixpoint endsWith (s suffix : string) : bool :=
  String.eqb s suffix
  || match s with
     | EmptyString => false
     | String _ s' => endsWith s' suffix
     end.

Fixpoint has_slash (s : string) : bool :=
  match s with
  | EmptyString => false
  | String c s' => Ascii.eqb c "/" || has_slash s'
  end.

(** [filename.split('/').pop()]: what follows the last ['/'], the whole
    name when it has none. *)
Fixpoint split_pop (filename : string) : string :=
  match filename with
  | EmptyString => EmptyString
  | String c rest =>
      if has_slash rest then split_pop rest
      else if Ascii.eqb c "/" then rest else filename
  end.

(** The test of the extraction loop:
    [!zipEntry.dir && audioExtensions.some(ext => filename.toLowerCase().endsWith(ext))] *)
Definition isAudioEntry (dir : bool) (filename : string) : bool :=
  negb dir && existsb (fun ext => endsWith (lower filename) ext) audioExtensions.

(** The name of the pushed track: [filename.split('/').pop() || filename]. *)
Definition trackName (filename : string) : string :=
  if String.eqb (split_pop filename) "" then filename else split_pop filename.

(** ** More of the rendered view *)

(** [a.findIndex(p)]: the first position whose element satisfies [p], -1
    when there is none. *)
Fixpoint findIndex_from {A : Type} (p : A -> bool) (i : Z) (a : list A) : Z :=
  match a with
  | [] => -1
  | x :: a' => if p x then i else findIndex_from p (i + 1) a'
  end.

Definition findIndex {A : Type} (p : A -> bool) (a : list A) : Z := findIndex_from p 0 a.

(** The condition under which the row of track [index] gets the accent
    class:
    [index === currentTrackIndex && currentPlaylistIndex ===
       playlists.findIndex(p => p.name === currentPlaylist.name)].
    Rows exist only under [currentPlaylist &&]. *)
Definition highlighted (index : Z) (s : State) : bool :=
  match currentPlaylist s with
  | Some pl =>
      bool_decide (Some index = currentTrackIndex s)
      && bool_decide
           (currentPlaylistIndex s
            = Some (findIndex (fun p => String.eqb (playlistName p) (playlistName pl))
                      (playlists s)))
  | None => false
  end.

(** One row of the queue panel: the names of the queued track and of its
    playlist; reading [playlist.tracks] or [track.name] throws when the
    entry does not resolve. *)
Definition queue_row (s : State) (queuedTrack : QueuedTrack) : option (string * string) :=
  match at_index (playlists s) (playlistIndex queuedTrack) with
  | Some playlist =>
      match at_index (tracks playlist) (trackIndex queuedTrack) with
      | Some track => Some (name track, playlistName playlist)
      | None => None
      end
  | None => None
  end.

(** [queue.map(...)] of the queue panel: [None] when a row throws. *)
Definition queue_rows (s : State) : option (list (string * string)) :=
  mapM (queue_row s) (queue s).

(** ** Conditions on states *)

(** Every playlist has a track. *)
Definition library_wf (s : State) : Prop :=
  Forall (fun pl => tracks pl <> []) (playlists s).

(** Every queued entry resolves to a track of the library. *)
Definition queue_wf (s : State) : Prop :=
  Forall (fun e => valid_pair s (playlistIndex e) (trackIndex e)) (queue s).

(** Nothing is loaded and nothing selected, or the selection is a track. *)
Definition selection_resolves (s : State) : Prop :=
  (playlists s = [] /\ currentPlaylistIndex s = None)
  \/ is_Some (currentTrack s).

(** The three conditions together. *)
Definition player_wf (s : State) : Prop :=
  library_wf s /\ queue_wf s /\ selection_resolves s.

(** [addToQueue] for each entry of [entries], in order. *)
Definition enqueue_all (entries : list QueuedTrack) (s : State) : State :=
  foldl (fun s e => (addToQueue (playlistIndex e) (trackIndex e) s).1) s entries.

(** ** The rest of the revision without the queue ([src/unnamed/part_000]) *)

Module NoQueueView.

Definition currentTrack (s : NoQueue.State) : option Track :=
  match NoQueue.currentPlaylist s, NoQueue.currentTrackIndex s with
  | Some pl, Some t => at_index (tracks pl) t
  | _, _ => None
  end.

Definition playPrevious (s : NoQueue.State) : NoQueue.State :=
  match NoQueue.currentPlaylist s with
  | None => s
  | Some pl =>
      {| NoQueue.playlists := NoQueue.playlists s;
         NoQueue.currentPlaylistIndex := NoQueue.currentPlaylistIndex s;
         NoQueue.currentTrackIndex :=
           Some (playPrevious_updater pl (NoQueue.currentTrackIndex s));
         NoQueue.isPlaying := true |}
  end.

Definition togglePlayPause (s : NoQueue.State) : NoQueue.State :=
  match NoQueue.currentTrackIndex s with
  | None => s
  | Some _ =>
      {| NoQueue.playlists := NoQueue.playlists s;
         NoQueue.currentPlaylistIndex := NoQueue.currentPlaylistIndex s;
         NoQueue.currentTrackIndex := NoQueue.currentTrackIndex s;
         NoQueue.isPlaying := negb (NoQueue.isPlaying s) |}
  end.

Definition selectTrack (index : Z) (s : NoQueue.State) : NoQueue.State :=
  {| NoQueue.playlists := NoQueue.playlists s;
     NoQueue.currentPlaylistIndex := NoQueue.currentPlaylistIndex s;
     NoQueue.currentTrackIndex := Some index;
     NoQueue.isPlaying := true |}.

Definition handlePlaylistChange (index : Z) (s : NoQueue.State) : NoQueue.State :=
  if negb (bool_decide (Some index = NoQueue.currentPlaylistIndex s)) then
    {| NoQueue.playlists := NoQueue.playlists s;
       NoQueue.currentPlaylistIndex := Some index;
       NoQueue.currentTrackIndex := Some 0;
       NoQueue.isPlaying := true |}
  else s.

Inductive Event :=
| FileInput_change (fileName : string) (zip : Archive)
| Select_change (index : Z)
| SkipBack_click
| PlayPause_click
| SkipForward_click
| TrackRow_click (index : Z)
| Audio_ended.

Definition rendered (e : Event) (s : NoQueue.State) : bool :=
  match e with
  | FileInput_change _ _ => true
  | Select_change index =>
      (1 <? len (NoQueue.playlists s))
      && bool_decide (is_Some (NoQueue.currentPlaylistIndex s))
      && in_range index (NoQueue.playlists s)
  | SkipBack_click | PlayPause_click | SkipForward_click =>
      bool_decide (is_Some (NoQueue.currentPlaylist s))
      && bool_decide (is_Some (currentTrack s))
  | TrackRow_click index =>
      match NoQueue.currentPlaylist s with
      | Some pl => in_range index (tracks pl)
      | None => false
      end
  | Audio_ended => true
  end.

Definition dispatch (localeCompare : string -> string -> Z)
    (e : Event) (s : NoQueue.State) : NoQueue.State :=
  match e with
  | FileInput_change fileName zip => NoQueue.handleFileUpload localeCompare fileName zip s
  | Select_change index => handlePlaylistChange index s
  | SkipBack_click => playPrevious s
  | PlayPause_click => togglePlayPause s
  | SkipForward_click => NoQueue.playNext s
  | TrackRow_click index => selectTrack index s
  | Audio_ended => NoQueue.playNext s
  end.

End NoQueueView.

(** The event of the queue revision that the same element raises. *)
Definition with_queue_event (e : NoQueueView.Event) : Event :=
  match e with
  | NoQueueView.FileInput_change fileName zip => FileInput_change fileName zip
  | NoQueueView.Select_change index => Select_change index
  | NoQueueView.SkipBack_click => SkipBack_click
  | NoQueueView.PlayPause_click => PlayPause_click
  | NoQueueView.SkipForward_click => SkipForward_click
  | NoQueueView.TrackRow_click index => TrackRow_click index
  | NoQueueView.Audio_ended => Audio_ended
  end.

(** ** The first revision: one flat playlist ([src/pages/Index.tsx], the
    component at the head of the file) *)

Module Flat.

Record State := {
  playlist : list Track;
  currentTrackIndex : option Z;
  isPlaying : bool
}.

Definition init : State :=
  {| playlist := []; currentTrackIndex := None; isPlaying := false |}.

(** [currentTrackIndex !== null ? playlist[currentTrackIndex] : null] *)
Definition currentTrack (s : State) : option Track :=
  match currentTrackIndex s with
  | Some i => at_index (playlist s) i
  | None => None
  end.

(** Every upload merges its tracks into the one playlist and sorts the
    whole again; the track index is set only when none was set. *)
Definition handleFileUpload (localeCompare : string -> string -> Z)
    (zip : Archive) (s : State) : State * list Report :=
  match zip with
  | Unreadable => (s, [ConsoleError "Error processing zip file:"])
  | Extracted audioFiles =>
      let newPlaylist := playlist s ++ audioFiles in
      ({| playlist := Array_sort (fun a b => localeCompare (name a) (name b)) newPlaylist;
          currentTrackIndex :=
            match currentTrackIndex s with
            | None => if 0 <? len audioFiles then Some 0 else None
            | Some i => Some i
            end;
          isPlaying := isPlaying s |}, [])
  end.

Definition playNext (s : State) : State :=
  if len (playlist s) =? 0 then s
  else
    {| playlist := playlist s;
       currentTrackIndex :=
         Some match currentTrackIndex s with
              | None => 0
              | Some prevIndex =>
                  if prevIndex =? len (playlist s) - 1 then 0 else prevIndex + 1
              end;
       isPlaying := true |}.

Definition playPrevious (s : State) : State :=
  if len (playlist s) =? 0 then s
  else
    {| playlist := playlist s;
       currentTrackIndex :=
         Some match currentTrackIndex s with
              | None => len (playlist s) - 1
              | Some prevIndex =>
                  if prevIndex =? 0 then len (playlist s) - 1 else prevIndex - 1
              end;
       isPlaying := true |}.

Definition togglePlayPause (s : State) : State :=
  match currentTrackIndex s with
  | None => s
  | Some _ =>
      {| playlist := playlist s; currentTrackIndex := currentTrackIndex s;
         isPlaying := negb (isPlaying s) |}
  end.

Definition selectTrack (index : Z) (s : State) : State :=
  {| playlist := playlist s; currentTrackIndex := Some index; isPlaying := true |}.

Inductive Event :=
| FileInput_change (zip : Archive)
| SkipBack_click
| PlayPause_click
| SkipForward_click
| TrackRow_click (index : Z)
| Audio_ended.

Definition rendered (e : Event) (s : State) : bool :=
  match e with
  | FileInput_change _ => true
  | SkipBack_click | PlayPause_click | SkipForward_click =>
      (* playlist.length > 0 && currentTrack *)
      (0 <? len (playlist s)) && bool_decide (is_Some (currentTrack s))
  | TrackRow_click index =>
      (* playlist.length > 0 && ...; one row per track *)
      (0 <? len (playlist s)) && in_range index (playlist s)
  | Audio_ended => true
  end.

Definition dispatch (localeCompare : string -> string -> Z) (e : Event) (s : State) : State :=
  match e with
  | FileInput_change zip => (handleFileUpload localeCompare zip s).1
  | SkipBack_click => playPrevious s
  | PlayPause_click => togglePlayPause s
  | SkipForward_click => playNext s
  | TrackRow_click index => selectTrack index s
  | Audio_ended => playNext s
  end.

Definition step (localeCompare : string -> string -> Z) (s s' : State) : Prop :=
  exists e, rendered e s = true /\ dispatch localeCompare e s = s'.

Definition reachable (localeCompare : string -> string -> Z) (s : State) : Prop :=
  rtc (step localeCompare) init s.

End Flat.

(** A library of one playlist, selected, seen as the flat playlist. *)
Definition flat_view (s : State) : Flat.State :=
  {| Flat.playlist := match currentPlaylist s with Some pl => tracks pl | None => [] end;
     Flat.currentTrackIndex := currentTrackIndex s;
     Flat.isPlaying := isPlaying s |}.

(** * Proofs *)

(** ** Arrays *)

Lemma len_cons {A : Type} (x : A) (a : list A) : len (x :: a) = len a + 1.
Proof. unfold len. rewrite length_cons. lia. Qed.

Lemma len_nonneg {A : Type} (a : list A) : 0 <= len a.
Proof. unfold len. lia. Qed.

Lemma at_index_in_range {A : Type} (a : list A) (i : Z) :
  is_Some (at_index a i) <-> in_range i a = true.
Proof.
  unfold at_index, in_range, len.
  destruct (Z.ltb_spec i 0) as [Hneg | Hpos].
  - split; [intros [x Hx]; discriminate |].
    rewrite andb_true_iff, Z.leb_le. lia.
  - rewrite lookup_lt_is_Some, andb_true_iff, Z.leb_le, Z.ltb_lt. lia.
Qed.

(** Removing by position with [filter] is deletion at that position. *)
Lemma filter_index_delete {A : Type} (a : list A) (base i : Z) :
  0 <= i ->
  filter_index (fun index => negb (index =? base + i)) base a = delete (Z.to_nat i) a.
Proof.
  revert base i. induction a as [| x a IH]; intros base i Hi; simpl.
  - reflexivity.
  - destruct (Z.eqb_spec base (base + i)) as [Heq | Hne]; simpl.
    + assert (i = 0) as -> by lia. simpl.
      clear IH Heq Hi. revert base.
      assert (forall b k, 0 < k ->
                filter_index (fun index => negb (index =? b)) (b + k) a = a) as Hkeep.
      { induction a as [| y a IH]; intros b k Hk; simpl; [reflexivity |].
        destruct (Z.eqb_spec (b + k) b); [lia |]. simpl. f_equal.
        replace (b + k + 1) with (b + (k + 1)) by lia. apply IH. lia. }
      intros base. rewrite Z.add_0_r. apply (Hkeep base 1). lia.
    + assert (0 < i) as Hpos by lia.
      replace (Z.to_nat i) with (S (Z.to_nat (i - 1))) by lia. simpl. f_equal.
      replace (base + i) with ((base + 1) + (i - 1)) by lia.
      apply IH. lia.
Qed.

Lemma removeFromQueue_delete (queueIndex : Z) (s : State) :
  0 <= queueIndex ->
  queue (removeFromQueue queueIndex s) = delete (Z.to_nat queueIndex) (queue s).
Proof.
  intros Hpos. unfold removeFromQueue. simpl.
  exact (filter_index_delete (queue s) 0 queueIndex Hpos).
Qed.

(** The add button of a track row enqueues a pair that resolves. *)
Lemma Plus_click_valid_pair (s : State) (p t : Z) :
  rendered (Plus_click p t) s = true -> valid_pair s p t.
Proof.
  simpl. unfold currentPlaylist.
  destruct (currentPlaylistIndex s) as [p' |]; [| discriminate].
  destruct (at_index (playlists s) p') as [pl |] eqn:Hpl; [| discriminate].
  rewrite andb_true_iff, bool_decide_eq_true. intros [[= ->] Hrange].
  exists pl. split; [exact Hpl | apply at_index_in_range, Hrange].
Qed.

(** ** [playNext] with and without queued entries *)

Lemma playNext_queued (s : State) (head : QueuedTrack) (rest : list QueuedTrack) :
  queue s = head :: rest ->
  playNext s =
    {| playlists := playlists s; queue := rest;
       currentPlaylistIndex := Some (playlistIndex head);
       currentTrackIndex := Some (trackIndex head); isPlaying := true |}.
Proof.
  intros Hq. unfold playNext. rewrite Hq, len_cons.
  destruct (Z.ltb_spec 0 (len rest + 1)) as [_ | Hle].
  - reflexivity.
  - pose proof (len_nonneg rest). lia.
Qed.

Lemma playNext_no_queue (s : State) :
  queue s = [] ->
  playNext s =
    match currentPlaylist s with
    | None => s
    | Some pl =>
        setIsPlaying true
          (setCurrentTrackIndex (Some (playNext_updater pl (currentTrackIndex s))) s)
    end.
Proof. intros Hq. unfold playNext. rewrite Hq. reflexivity. Qed.

(** C1: when the queue is not empty, the end-of-track transition selects
    the queue's former head (both indices), removes that one entry, sets
    the status to playing and leaves the library alone; the outcome is
    fixed by the queue and the library, whatever the selection and status
    were, so the wrap-around rule has no part in it. *)
Theorem handleEnded_takes_queue_head
    (s : State) (head : QueuedTrack) (rest : list QueuedTrack) :
  queue s = head :: rest ->
  currentPlaylistIndex (handleEnded s) = Some (playlistIndex head)
  /\ currentTrackIndex (handleEnded s) = Some (trackIndex head)
  /\ queue (handleEnded s) = rest
  /\ isPlaying (handleEnded s) = true
  /\ playlists (handleEnded s) = playlists s
  /\ (forall s', queue s' = queue s -> playlists s' = playlists s ->
        handleEnded s' = handleEnded s).
Proof.
  intros Hq. unfold handleEnded. rewrite (playNext_queued s head rest Hq). simpl.
  repeat split.
  intros s' Hq' Hp'. rewrite Hq in Hq'.
  rewrite (playNext_queued s' head rest Hq'). congruence.
Qed.

Lemma handleEnded_takes_queue_head_witness :
  currentPlaylistIndex (handleEnded queued) = Some 0
  /\ currentTrackIndex (handleEnded queued) = Some 2
  /\ queue (handleEnded queued) = []
  /\ isPlaying (handleEnded queued) = true.
Proof.
  destruct (handleEnded_takes_queue_head queued
              {| playlistIndex := 0; trackIndex := 2 |} [] eq_refl)
    as (Hp & Ht & Hq & Hplay & _).
  repeat split; assumption.
Defined.

(** C2, as stated, fails: the skip-forward button runs [playNext], which
    takes the queued entry.  From playlist A at track 0 with track 2
    queued, Next empties the queue and selects track 2, not track 1. *)
Lemma Next_ignores_queue_counterexample : ~ Next_ignores_queue queued.
Proof. intros [Hq _]. vm_compute in Hq. discriminate Hq. Qed.

(** C2, amended: manual Next is the transition of the end-of-track event.
    With a queued entry it selects the queue's head and removes it; with
    an empty queue the queue stays empty and the track index moves within
    the selected playlist by the wrap-around rule (nothing changes when no
    playlist resolves). *)
Theorem Next_is_playNext (localeCompare : string -> string -> Z) (s : State) :
  (dispatch localeCompare SkipForward_click s).1 = handleEnded s
  /\ match queue s with
     | head :: rest =>
         queue (playNext s) = rest
         /\ currentPlaylistIndex (playNext s) = Some (playlistIndex head)
         /\ currentTrackIndex (playNext s) = Some (trackIndex head)
         /\ isPlaying (playNext s) = true
     | [] =>
         queue (playNext s) = []
         /\ currentPlaylistIndex (playNext s) = currentPlaylistIndex s
         /\ match currentPlaylist s with
            | Some pl =>
                currentTrackIndex (playNext s)
                  = Some (playNext_updater pl (currentTrackIndex s))
                /\ isPlaying (playNext s) = true
            | None => playNext s = s
            end
     end.
Proof.
  split; [reflexivity |].
  destruct (queue s) as [| head rest] eqn:Hq.
  - rewrite (playNext_no_queue s Hq).
    destruct (currentPlaylist s) as [pl |]; simpl; auto.
  - rewrite (playNext_queued s head rest Hq). simpl. auto.
Qed.

(** ** The end-of-track transition against manual Next *)

Lemma playNext_without_queue (s : State) :
  queue s = [] -> without_queue (playNext s) = NoQueue.playNext (without_queue s).
Proof.
  intros Hq. rewrite (playNext_no_queue s Hq).
  unfold NoQueue.playNext, NoQueue.currentPlaylist, currentPlaylist. simpl.
  destruct (currentPlaylistIndex s) as [p |] eqn:Hp; [| reflexivity].
  destruct (at_index (playlists s) p); [| reflexivity].
  unfold without_queue. simpl. rewrite Hp. reflexivity.
Qed.

Lemma playNext_advance_spec (s : State) :
  queue s = [] -> is_Some (currentPlaylistIndex s) -> selection_wf s ->
  playNext s = state_after s (advance_spec Next s).
Proof.
  intros Hq [p Hp] Hwf. rewrite (playNext_no_queue s Hq).
  destruct Hwf as [[Hnone _] | [_ [t Ht]]]; [congruence |].
  unfold advance_spec, currentPlaylist. rewrite Hp, Ht.
  destruct (at_index (playlists s) p); reflexivity.
Qed.

(** C3: with an empty queue and a playlist selected, the end-of-track
    transition ends in the state of a manual Next: the one the skip-forward
    button produces, the one [advance(Next)] of the specification produces,
    and, the queue apart, the one [playNext] of the revision without a
    queue produces; the queue is still empty. *)
Theorem handleEnded_empty_queue_is_Next (s : State) :
  queue s = [] -> is_Some (currentPlaylistIndex s) -> selection_wf s ->
  handleEnded s = playNext s
  /\ handleEnded s = state_after s (advance_spec Next s)
  /\ without_queue (handleEnded s) = NoQueue.playNext (without_queue s)
  /\ queue (handleEnded s) = queue s.
Proof.
  intros Hq Hp Hwf. unfold handleEnded. repeat split.
  - apply playNext_advance_spec; assumption.
  - apply playNext_without_queue; assumption.
  - rewrite (playNext_no_queue s Hq).
    destruct (currentPlaylist s); reflexivity.
Qed.

Lemma handleEnded_empty_queue_is_Next_witness :
  handleEnded loaded = state_after loaded (advance_spec Next loaded)
  /\ currentTrackIndex (handleEnded loaded) = Some 1.
Proof.
  split; [| reflexivity].
  apply (handleEnded_empty_queue_is_Next loaded).
  - reflexivity.
  - exists 0. reflexivity.
  - right. split; [exists 0 | exists 0]; reflexivity.
Defined.

(** ** Enqueue, then the end of a track *)

Lemma addToQueue_state (p t : Z) (s : State) :
  (addToQueue p t s).1
  = setQueue (queue s ++ [{| playlistIndex := p; trackIndex := t |}]) s.
Proof.
  unfold addToQueue.
  destruct (at_index (playlists s) p) as [pl |]; [| reflexivity].
  destruct (at_index (tracks pl) t); reflexivity.
Qed.

(** C4, as stated, fails: the queue is first-in first-out, so with an
    entry already waiting the one taken is that entry, not the one just
    added.  With (0, 2) queued, adding (0, 1) and taking the front selects
    (0, 2). *)
Lemma enqueue_pop_returns_entry_counterexample :
  ~ enqueue_pop_returns_entry queued 0 1.
Proof. intros (_ & Ht & _). vm_compute in Ht. discriminate Ht. Qed.

(** C4, amended: after [addToQueue(p, t)] for a valid pair, the queue
    branch of [playNext] takes the former head of the queue when there was
    one, and [(p, t)] itself when the queue was empty; the rest keeps its
    order with the new entry last, and the queue's length is back to what
    it was before the entry was added. *)
Theorem addToQueue_then_playNext (s : State) (p t : Z) :
  valid_pair s p t ->
  let entry := {| playlistIndex := p; trackIndex := t |} in
  let taken := default entry (head (queue s)) in
  let s' := playNext (addToQueue p t s).1 in
  currentPlaylistIndex s' = Some (playlistIndex taken)
  /\ currentTrackIndex s' = Some (trackIndex taken)
  /\ queue s' = tail (queue s ++ [entry])
  /\ length (queue s') = length (queue s)
  /\ (queue s = [] ->
      currentPlaylistIndex s' = Some p /\ currentTrackIndex s' = Some t /\ queue s' = []).
Proof.
  intros _. cbv zeta. rewrite addToQueue_state.
  set (entry := {| playlistIndex := p; trackIndex := t |}).
  destruct (queue s) as [| head rest].
  - rewrite (playNext_queued (setQueue ([] ++ [entry]) s) entry [] eq_refl).
    simpl. repeat split.
  - rewrite (playNext_queued (setQueue ((head :: rest) ++ [entry]) s)
               head (rest ++ [entry]) eq_refl).
    simpl. repeat split; try discriminate.
    rewrite length_app. simpl. lia.
Qed.

Lemma addToQueue_then_playNext_witness :
  currentTrackIndex (playNext (addToQueue 0 1 loaded).1) = Some 1
  /\ length (queue (playNext (addToQueue 0 1 loaded).1)) = length (queue loaded).
Proof.
  assert (valid_pair loaded 0 1) as Hvalid.
  { exists playlistA. split; [reflexivity | exists (track "t2.mp3"); reflexivity]. }
  destruct (addToQueue_then_playNext loaded 0 1 Hvalid) as (_ & Ht & _ & Hlen & _).
  split; [exact Ht | exact Hlen].
Defined.

(** ** Choosing a playlist *)

(** C5, as stated, fails: [handlePlaylistChange] has no range check.  With
    the single playlist A selected, index 7 becomes the selected playlist,
    the track index is reset to 0 and the status becomes playing; nothing
    is reported. *)
Lemma selectPlaylist_rejected_counterexample :
  ~ selectPlaylist_rejected collate loaded 7.
Proof. intros (Hp & _). vm_compute in Hp. discriminate Hp. Qed.

(** C5, amended: for an index outside the library, [handlePlaylistChange]
    leaves the library and the queue unchanged and reports nothing; it does
    not check the range: an index other than the current playlist index
    becomes the selection, at track 0, with the status playing, and the
    current playlist index changes nothing.  The selector never offers such
    an index. *)
Theorem handlePlaylistChange_out_of_range
    (localeCompare : string -> string -> Z) (s : State) (index : Z) :
  in_range index (playlists s) = false ->
  let r := dispatch localeCompare (Select_change index) s in
  playlists r.1 = playlists s
  /\ queue r.1 = queue s
  /\ r.2 = []
  /\ (currentPlaylistIndex s <> Some index ->
      currentPlaylistIndex r.1 = Some index
      /\ currentTrackIndex r.1 = Some 0
      /\ isPlaying r.1 = true)
  /\ (currentPlaylistIndex s = Some index -> r.1 = s)
  /\ rendered (Select_change index) s = false.
Proof.
  intros Hout. cbv zeta. simpl. unfold handlePlaylistChange.
  rewrite Hout, andb_false_r.
  destruct (bool_decide_reflect (Some index = currentPlaylistIndex s)) as [Heq | Hne];
    simpl; repeat split; congruence.
Qed.

Lemma handlePlaylistChange_out_of_range_witness :
  currentPlaylistIndex (handlePlaylistChange 7 loaded) = Some 7
  /\ currentTrackIndex (handlePlaylistChange 7 loaded) = Some 0
  /\ isPlaying (handlePlaylistChange 7 loaded) = true.
Proof.
  apply (handlePlaylistChange_out_of_range collate loaded 7 eq_refl).
  discriminate.
Defined.

(** ** The wrap-around rule *)

(** C6, as stated, fails for Next: the skip-forward button runs [playNext],
    and a queued entry takes precedence over the wrap-around rule.  In
    playlist A (three tracks) at its last track, index 2, with (0, 1)
    queued, Next selects track 1, not track 0. *)
Lemma Next_Previous_wrap_counterexample :
  currentPlaylist lastQueued = Some playlistA
  /\ 1 <= len (tracks playlistA)
  /\ currentTrackIndex lastQueued = Some 2
  /\ ~ Next_Previous_wrap lastQueued playlistA 2.
Proof.
  split; [reflexivity |]. split; [vm_compute; discriminate |]. split; [reflexivity |].
  intros (Hlast & _). specialize (Hlast eq_refl). vm_compute in Hlast. discriminate Hlast.
Qed.

(** C6, amended: in a selected playlist of [n >= 1] tracks at track index
    [i], Previous yields [n - 1] when [i = 0] and [i - 1] otherwise; Next,
    when the queue is empty, yields 0 when [i = n - 1] and [i + 1]
    otherwise; when the queue is not empty, Next yields the track index of
    the queue's head and the wrap-around rule is not applied.  An index
    inside the playlist is moved by either rule to an index inside it. *)
Theorem wrap_around (s : State) (pl : Playlist) (i : Z) :
  currentPlaylist s = Some pl -> 1 <= len (tracks pl) -> currentTrackIndex s = Some i ->
  let n := len (tracks pl) in
  (i = 0 -> currentTrackIndex (playPrevious s) = Some (n - 1))
  /\ (i <> 0 -> currentTrackIndex (playPrevious s) = Some (i - 1))
  /\ (queue s = [] ->
      (i = n - 1 -> currentTrackIndex (playNext s) = Some 0)
      /\ (i <> n - 1 -> currentTrackIndex (playNext s) = Some (i + 1)))
  /\ (forall head rest, queue s = head :: rest ->
        currentTrackIndex (playNext s) = Some (trackIndex head))
  /\ (0 <= i < n ->
      0 <= playNext_updater pl (Some i) < n /\ 0 <= playPrevious_updater pl (Some i) < n).
Proof.
  intros Hpl Hn Hi. cbv zeta.
  assert (currentTrackIndex (playPrevious s) = Some (playPrevious_updater pl (Some i)))
    as Hprevious by (unfold playPrevious; rewrite Hpl, Hi; reflexivity).
  unfold playNext_updater, playPrevious_updater in *.
  split; [| split; [| split; [| split]]].
  - intros ->. exact Hprevious.
  - intros Hne. rewrite Hprevious.
    destruct (Z.eqb_spec i 0); [contradiction | reflexivity].
  - intros Hq. rewrite (playNext_no_queue s Hq), Hpl, Hi. simpl.
    unfold playNext_updater. split.
    + intros ->. rewrite Z.eqb_refl. reflexivity.
    + intros Hne.
      destruct (Z.eqb_spec i (len (tracks pl) - 1)); [contradiction | reflexivity].
  - intros head rest Hq. rewrite (playNext_queued s head rest Hq). reflexivity.
  - intros Hrange.
    destruct (Z.eqb_spec i (len (tracks pl) - 1)); destruct (Z.eqb_spec i 0); lia.
Qed.

Lemma wrap_around_witness :
  currentTrackIndex (playPrevious loaded) = Some 2
  /\ currentTrackIndex (playNext (selectTrack 2 loaded)) = Some 0
  /\ currentTrackIndex (playNext lastQueued) = Some 1.
Proof.
  assert (1 <= len (tracks playlistA)) as Hn by (vm_compute; discriminate).
  split; [| split].
  - apply (wrap_around loaded playlistA 0 eq_refl Hn eq_refl). reflexivity.
  - destruct (wrap_around (selectTrack 2 loaded) playlistA 2 eq_refl Hn eq_refl)
      as (_ & _ & Hnext & _).
    destruct (Hnext eq_refl) as [Hlast _]. exact (Hlast eq_refl).
  - destruct (wrap_around lastQueued playlistA 2 eq_refl Hn eq_refl)
      as (_ & _ & _ & Hqueued & _).
    exact (Hqueued {| playlistIndex := 0; trackIndex := 1 |} [] eq_refl).
Defined.

(** ** Uploads *)

(** C8, as stated, fails: an upload without audio entries is skipped in
    silence; no error is reported for it. *)
Lemma empty_upload_reported_counterexample :
  ~ empty_upload_reported collate "empty.zip" init.
Proof. intros [_ Herr]. vm_compute in Herr. discriminate Herr. Qed.

(** C8, amended: an upload whose extracted track set is empty creates no
    playlist and leaves the whole state (library, queue, selection, status)
    as it was; nothing is reported, and nothing is thrown. *)
Theorem empty_upload_is_skipped
    (localeCompare : string -> string -> Z) (fileName : string) (s : State) :
  handleFileUpload localeCompare fileName (Extracted []) s = (s, []).
Proof. reflexivity. Qed.

(** ** [Array.prototype.sort] under a consistent comparator *)

Section Sort.
Context {A : Type} (compareFn : A -> A -> Z).

Lemma sort_insert_perm (x : A) (a : list A) : sort_insert compareFn x a ≡ₚ x :: a.
Proof.
  induction a as [| y a IH]; simpl; [reflexivity |].
  destruct (compareFn x y <=? 0); [reflexivity |].
  rewrite IH. apply Permutation_swap.
Qed.

Lemma Array_sort_perm (a : list A) : Array_sort compareFn a ≡ₚ a.
Proof.
  induction a as [| x a IH]; simpl; [reflexivity |].
  rewrite sort_insert_perm, IH. reflexivity.
Qed.

Hypothesis consistent : ConsistentComparator compareFn.

Lemma sort_insert_sorted (x : A) (a : list A) :
  StronglySorted (fun u v => compareFn u v <= 0) a ->
  StronglySorted (fun u v => compareFn u v <= 0) (sort_insert compareFn x a).
Proof.
  induction 1 as [| y a Hsorted IH Hall]; simpl.
  - constructor; constructor.
  - destruct (Z.leb_spec (compareFn x y) 0) as [Hle | Hgt].
    + constructor; [constructor; assumption |].
      constructor; [assumption |].
      eapply Forall_impl; [exact Hall |].
      intros z Hz. simpl in Hz. exact (cmp_trans _ consistent x y z Hle Hz).
    + constructor; [assumption |].
      rewrite sort_insert_perm. constructor; [| assumption].
      pose proof (cmp_flip _ consistent x y Hgt). lia.
Qed.

Lemma Array_sort_sorted (a : list A) :
  StronglySorted (fun u v => compareFn u v <= 0) (Array_sort compareFn a).
Proof.
  induction a as [| x a IH]; simpl; [constructor |].
  apply sort_insert_sorted, IH.
Qed.

(** Inserting [x] moves it past strictly smaller elements only, so it
    stays first among the elements it ties with. *)
Lemma sort_insert_ties (k x : A) (a : list A) :
  filter (fun y => compareFn k y = 0) (sort_insert compareFn x a)
  = filter (fun y => compareFn k y = 0) (x :: a).
Proof.
  induction a as [| y a IH]; simpl; [reflexivity |].
  destruct (Z.leb_spec (compareFn x y) 0) as [Hle | Hgt]; [reflexivity |].
  rewrite (filter_cons _ y (sort_insert compareFn x a)), IH.
  rewrite !filter_cons.
  destruct (decide (compareFn k x = 0)) as [Hx |]; [| reflexivity].
  destruct (decide (compareFn k y = 0)) as [Hy |]; [| reflexivity].
  exfalso.
  assert (compareFn x k <= 0) as Hxk
    by (rewrite (cmp_sym _ consistent k x Hx); reflexivity).
  assert (compareFn k y <= 0) as Hky by (rewrite Hy; reflexivity).
  pose proof (cmp_trans _ consistent x k y Hxk Hky). lia.
Qed.

Lemma Array_sort_ties (k : A) (a : list A) :
  filter (fun y => compareFn k y = 0) (Array_sort compareFn a)
  = filter (fun y => compareFn k y = 0) a.
Proof.
  induction a as [| x a IH]; simpl; [reflexivity |].
  rewrite sort_insert_ties, !filter_cons, IH. reflexivity.
Qed.

End Sort.

(** A comparator that compares keys by [String.compare] is consistent. *)
Lemma compare_keys_consistent {A : Type} (key : A -> string) :
  ConsistentComparator (fun a b => Z_of_comparison (String.compare (key a) (key b))).
Proof.
  split.
  - intros a b H. destruct (String.compare (key a) (key b)) eqn:Hc; try discriminate.
    apply String_as_OT.cmp_eq in Hc. rewrite Hc.
    replace (String.compare (key b) (key b)) with Eq; [reflexivity |].
    symmetry. apply String_as_OT.cmp_eq. reflexivity.
  - intros a b H. rewrite String.compare_antisym.
    destruct (String.compare (key a) (key b)); simpl in *; lia.
  - intros a b c Hab Hbc.
    destruct (String.compare (key a) (key b)) eqn:Eab; simpl in Hab; try lia.
    + apply String_as_OT.cmp_eq in Eab. rewrite Eab. exact Hbc.
    + destruct (String.compare (key b) (key c)) eqn:Ebc; simpl in Hbc; try lia.
      * apply String_as_OT.cmp_eq in Ebc. rewrite <- Ebc, Eab. simpl. lia.
      * apply String_as_OT.cmp_lt in Eab, Ebc.
        pose proof (String_as_OT.lt_trans _ _ _ Eab Ebc) as Hac.
        apply String_as_OT.cmp_lt in Hac. unfold String_as_OT.cmp in Hac.
        rewrite Hac. simpl. lia.
Qed.

Lemma collate_consistent : ConsistentComparator collate.
Proof. exact (compare_keys_consistent collationKey). Qed.

Lemma by_name_consistent (compare : string -> string -> Z) :
  ConsistentComparator compare -> ConsistentComparator (by_name compare).
Proof.
  intros [Hsym Hflip Htrans]. unfold by_name. split; intros; eauto.
Qed.

(** C7, as stated, fails on a host whose [localeCompare] tells letter case
    apart, as the default collation does: names that differ in case only
    are not ties, so "A.mp3" uploaded before "a.mp3" comes out after it. *)
Lemma upload_sorted_ignoring_case_counterexample :
  ~ upload_sorted_ignoring_case collate "songs.zip" [track "A.mp3"; track "a.mp3"] init.
Proof.
  intros (pl & Hpl & _ & Hties). simpl in Hpl.
  injection Hpl as <-.
  specialize (Hties (track "a.mp3")). vm_compute in Hties. discriminate Hties.
Qed.

(** C7, amended: for a non-empty track set the upload appends one playlist,
    named after the file, whose tracks are the uploaded ones sorted by the
    host's [localeCompare] on their names; tracks whose names tie under
    [localeCompare] keep their original relative order. *)
Theorem upload_sorted_by_localeCompare
    (localeCompare : string -> string -> Z) (fileName : string)
    (audioFiles : list Track) (s : State) :
  ConsistentComparator localeCompare -> audioFiles <> [] ->
  exists pl,
    playlists (handleFileUpload localeCompare fileName (Extracted audioFiles) s).1
      = playlists s ++ [pl]
    /\ playlistName pl = fileName
    /\ tracks pl ≡ₚ audioFiles
    /\ StableSorted (by_name localeCompare) audioFiles (tracks pl).
Proof.
  intros Hcons Hne.
  exists {| playlistName := fileName;
            tracks := Array_sort (by_name localeCompare) audioFiles |}.
  unfold handleFileUpload.
  destruct audioFiles as [| x a]; [contradiction |].
  rewrite len_cons.
  destruct (Z.ltb_spec 0 (len a + 1)) as [_ | Hle];
    [| pose proof (len_nonneg a); lia].
  repeat split.
  - destruct (currentPlaylistIndex s); reflexivity.
  - apply Array_sort_perm.
  - apply Array_sort_sorted, by_name_consistent, Hcons.
  - intros k. apply Array_sort_ties, by_name_consistent, Hcons.
Qed.

Lemma upload_sorted_by_localeCompare_witness :
  exists pl,
    playlists (handleFileUpload collate "songs.zip"
                 (Extracted [track "B.mp3"; track "A.mp3"; track "a.mp3"]) init).1
      = [pl]
    /\ map name (tracks pl) = ["a.mp3"; "A.mp3"; "B.mp3"]%string.
Proof.
  destruct (upload_sorted_by_localeCompare collate "songs.zip"
              [track "B.mp3"; track "A.mp3"; track "a.mp3"] init collate_consistent)
    as (pl & Hpl & _); [discriminate |].
  exists pl. split; [exact Hpl |].
  simpl in Hpl. injection Hpl as <-. reflexivity.
Defined.

(** ** The selection invariant *)

Lemma currentPlaylist_selected (s : State) (pl : Playlist) :
  currentPlaylist s = Some pl -> is_Some (currentPlaylistIndex s).
Proof.
  unfold currentPlaylist. destruct (currentPlaylistIndex s) as [p |]; [eauto | discriminate].
Qed.

Ltac both_set := right; split; simpl; eauto.

Lemma playNext_selection_wf (s : State) : selection_wf s -> selection_wf (playNext s).
Proof.
  intros Hwf. destruct (queue s) as [| head rest] eqn:Hq.
  - rewrite (playNext_no_queue s Hq).
    destruct (currentPlaylist s) as [pl |] eqn:Hpl; [| assumption].
    both_set. exact (currentPlaylist_selected s pl Hpl).
  - rewrite (playNext_queued s head rest Hq). both_set.
Qed.

Lemma playPrevious_selection_wf (s : State) : selection_wf s -> selection_wf (playPrevious s).
Proof.
  intros Hwf. unfold playPrevious.
  destruct (currentPlaylist s) as [pl |] eqn:Hpl; [| assumption].
  both_set. exact (currentPlaylist_selected s pl Hpl).
Qed.

Lemma handlePlaylistChange_selection_wf (index : Z) (s : State) :
  selection_wf s -> selection_wf (handlePlaylistChange index s).
Proof.
  intros Hwf. unfold handlePlaylistChange.
  destruct (negb _); [both_set | assumption].
Qed.

Lemma handleFileUpload_selection_wf
    (localeCompare : string -> string -> Z) (fileName : string) (zip : Archive) (s : State) :
  selection_wf s -> selection_wf (handleFileUpload localeCompare fileName zip s).1.
Proof.
  intros Hwf. unfold handleFileUpload.
  destruct zip as [| audioFiles]; [assumption |].
  destruct (0 <? len audioFiles); [| assumption].
  destruct (currentPlaylistIndex s) eqn:Hp; [| both_set].
  destruct Hwf as [[Hnone _] | [Hsp Hst]]; [congruence |].
  right. simpl. rewrite Hp. eauto.
Qed.

(** The handler of a rendered event keeps the selection well formed.  The
    guard matters for [selectTrack] only: a track row exists only under a
    selected playlist. *)
Lemma dispatch_selection_wf
    (localeCompare : string -> string -> Z) (s : State) (e : Event) :
  selection_wf s -> rendered e s = true -> selection_wf (dispatch localeCompare e s).1.
Proof.
  intros Hwf Hrendered. destruct e as [fileName zip | index | | | | index | p index | index |]; simpl.
  - apply handleFileUpload_selection_wf, Hwf.
  - apply handlePlaylistChange_selection_wf, Hwf.
  - apply playPrevious_selection_wf, Hwf.
  - unfold togglePlayPause. destruct (currentTrackIndex s) eqn:Ht; [| assumption].
    destruct Hwf as [[_ Hnone] | [Hsp _]]; [congruence |].
    right. simpl. rewrite Ht. eauto.
  - apply playNext_selection_wf, Hwf.
  - simpl in Hrendered. destruct (currentPlaylist s) as [pl |] eqn:Hpl; [| discriminate].
    both_set. exact (currentPlaylist_selected s pl Hpl).
  - rewrite addToQueue_state. exact Hwf.
  - exact Hwf.
  - apply playNext_selection_wf, Hwf.
Qed.

Lemma reachable_selection_wf (localeCompare : string -> string -> Z) (s : State) :
  reachable localeCompare s -> selection_wf s.
Proof.
  unfold reachable. revert s. apply rtc_ind_r.
  - left. split; reflexivity.
  - intros s1 s2 _ (e & Hrendered & <-) IH.
    apply dispatch_selection_wf; assumption.
Qed.

(** C9: the selection is well formed (both fields [null], or both set) in
    the initial state, and the handler of every event the view offers (the
    upload, the playlist selector, the three transport buttons, a track
    row, the queue's add and remove buttons, the end of a track) keeps it
    well formed. *)
Theorem selection_wf_invariant (localeCompare : string -> string -> Z) :
  selection_wf init
  /\ forall s e,
       selection_wf s -> rendered e s = true ->
       selection_wf (dispatch localeCompare e s).1.
Proof.
  split.
  - left. split; reflexivity.
  - intros s e. apply dispatch_selection_wf.
Qed.

Lemma selection_wf_invariant_witness :
  selection_wf (dispatch collate (TrackRow_click 2) loaded).1.
Proof.
  apply (proj2 (selection_wf_invariant collate) loaded (TrackRow_click 2)).
  - right. split; [exists 0 | exists 0]; reflexivity.
  - reflexivity.
Defined.

(** ** The first upload *)

Lemma handleFileUpload_isPlaying
    (localeCompare : string -> string -> Z) (fileName : string) (zip : Archive) (s : State) :
  isPlaying (handleFileUpload localeCompare fileName zip s).1 = isPlaying s.
Proof.
  unfold handleFileUpload. destruct zip as [| audioFiles]; [reflexivity |].
  destruct (0 <? len audioFiles); [| reflexivity].
  destruct (currentPlaylistIndex s); reflexivity.
Qed.

(** No handler removes a playlist. *)
Lemma dispatch_playlists (localeCompare : string -> string -> Z) (e : Event) (s : State) :
  exists added, playlists (dispatch localeCompare e s).1 = playlists s ++ added.
Proof.
  assert (exists added, playlists s = playlists s ++ added) as Hsame
    by (exists []; rewrite app_nil_r; reflexivity).
  destruct e as [fileName zip | index | | | | index | p index | index |]; simpl.
  - unfold handleFileUpload. destruct zip as [| audioFiles]; [exact Hsame |].
    destruct (0 <? len audioFiles); [| exact Hsame].
    destruct (currentPlaylistIndex s); simpl; eauto.
  - unfold handlePlaylistChange. destruct (negb _); exact Hsame.
  - unfold playPrevious. destruct (currentPlaylist s); exact Hsame.
  - unfold togglePlayPause. destruct (currentTrackIndex s); exact Hsame.
  - unfold playNext. destruct (0 <? len (queue s)).
    + destruct (at_index (queue s) 0); exact Hsame.
    + destruct (currentPlaylist s); exact Hsame.
  - exact Hsame.
  - rewrite addToQueue_state. exact Hsame.
  - exact Hsame.
  - unfold handleEnded, playNext. destruct (0 <? len (queue s)).
    + destruct (at_index (queue s) 0); exact Hsame.
    + destruct (currentPlaylist s); exact Hsame.
Qed.

(** While the library is empty nothing but an upload is offered, and the
    end of a track finds nothing to play: the state is the initial one. *)
Lemma reachable_empty_library (localeCompare : string -> string -> Z) (s : State) :
  reachable localeCompare s -> playlists s = [] -> s = init.
Proof.
  unfold reachable. revert s.
  apply (rtc_ind_r (fun s => playlists s = [] -> s = init)); [reflexivity |].
  intros s1 s2 Hsteps (e & Hrendered & <-) IH Hempty.
  destruct (dispatch_playlists localeCompare e s1) as [added Hadded].
  rewrite Hempty in Hadded. symmetry in Hadded.
  apply app_eq_nil in Hadded as [Hs1 _].
  specialize (IH Hs1). subst s1. clear Hsteps Hs1.
  destruct e as [fileName zip | index | | | | index | p index | index |];
    try discriminate Hrendered; try reflexivity.
  simpl in Hempty |- *. unfold handleFileUpload in *.
  destruct zip as [| audioFiles]; [reflexivity |].
  destruct (0 <? len audioFiles); [| reflexivity].
  simpl in Hempty. discriminate Hempty.
Qed.

(** C10: in a state the player can be in while its library is empty, an
    upload with at least one track selects playlist 0 and track 0 and
    leaves the playing flag as it was, which is "not playing"; the library
    then holds the one new playlist.  No upload, whatever the state, changes
    the playing flag.  The revision without a queue does the same. *)
Theorem first_upload_selects_first_track
    (localeCompare : string -> string -> Z) (fileName : string)
    (audioFiles : list Track) (s : State) :
  reachable localeCompare s -> playlists s = [] -> audioFiles <> [] ->
  let s' := (handleFileUpload localeCompare fileName (Extracted audioFiles) s).1 in
  currentPlaylistIndex s' = Some 0
  /\ currentTrackIndex s' = Some 0
  /\ isPlaying s' = isPlaying s
  /\ isPlaying s' = false
  /\ length (playlists s') = 1%nat
  /\ without_queue s'
     = NoQueue.handleFileUpload localeCompare fileName (Extracted audioFiles) (without_queue s)
  /\ (forall name zip s0,
        isPlaying (handleFileUpload localeCompare name zip s0).1 = isPlaying s0).
Proof.
  intros Hreach Hempty Hne. cbv zeta.
  rewrite (reachable_empty_library localeCompare s Hreach Hempty).
  destruct audioFiles as [| x a]; [contradiction |].
  unfold handleFileUpload, NoQueue.handleFileUpload. rewrite len_cons.
  destruct (Z.ltb_spec 0 (len a + 1)) as [_ | Hle];
    [| pose proof (len_nonneg a); lia].
  simpl. repeat split.
  intros name zip s0. apply handleFileUpload_isPlaying.
Qed.

Lemma first_upload_selects_first_track_witness :
  let s' := (handleFileUpload collate "a.zip"
               (Extracted [track "t1.mp3"; track "t2.mp3"; track "t3.mp3"]) init).1 in
  currentPlaylistIndex s' = Some 0 /\ currentTrackIndex s' = Some 0 /\ isPlaying s' = false.
Proof.
  destruct (first_upload_selects_first_track collate "a.zip"
              [track "t1.mp3"; track "t2.mp3"; track "t3.mp3"] init)
    as (Hp & Ht & _ & Hplaying & _).
  - apply rtc_refl.
  - reflexivity.
  - discriminate.
  - repeat split; assumption.
Defined.

(** The example states are states of the player: [loaded] follows the first
    upload, [queued] the click on the third track's add button. *)
Lemma loaded_reachable : reachable collate loaded.
Proof.
  eapply rtc_l; [| apply rtc_refl].
  exists (FileInput_change "a.zip"
            (Extracted [track "t1.mp3"; track "t2.mp3"; track "t3.mp3"])).
  split; reflexivity.
Qed.

Lemma queued_reachable : reachable collate queued.
Proof.
  eapply rtc_r; [apply loaded_reachable |].
  exists (Plus_click 0 2). split; reflexivity.
Qed.

Lemma lastQueued_reachable : reachable collate lastQueued.
Proof.
  eapply rtc_r; [eapply rtc_r; [apply loaded_reachable |] |].
  - exists (TrackRow_click 2). split; reflexivity.
  - exists (Plus_click 0 1). split; reflexivity.
Qed.

(** ** A session

    Playlist A of three tracks is loaded.  Next three times cycles the track
    index through 1, 2, 0; with track 2 queued, the end of the track selects
    (0, 2) and empties the queue, and the following end of track falls back
    to the wrap-around rule and returns to (0, 0). *)
Example session :
  let s1 := playNext loaded in
  let s2 := playNext s1 in
  let s3 := playNext s2 in
  let s4 := (addToQueue 0 2 s3).1 in
  let s5 := handleEnded s4 in
  let s6 := handleEnded s5 in
  map currentTrackIndex [s1; s2; s3; s5; s6] = [Some 1; Some 2; Some 0; Some 2; Some 0]
  /\ queue s4 = [{| playlistIndex := 0; trackIndex := 2 |}]
  /\ queue s5 = []
  /\ map currentPlaylistIndex [s5; s6] = [Some 0; Some 0]
  /\ map isPlaying [loaded; s1; s6] = [false; true; true].
Proof. repeat split. Qed.

(** * Further properties of the handlers *)

(** ** Removing from the queue *)

Lemma filter_index_keep_all {A : Type} (a : list A) (base i : Z) :
  i < base \/ base + len a <= i ->
  filter_index (fun index => negb (index =? i)) base a = a.
Proof.
  revert base. induction a as [| x a IH]; intros base Hout; simpl; [reflexivity |].
  rewrite len_cons in Hout. pose proof (len_nonneg a).
  destruct (Z.eqb_spec base i); [lia |]. simpl. f_equal. apply IH. lia.
Qed.

Lemma in_range_lookup {A : Type} (a : list A) (i : Z) :
  in_range i a = true -> 0 <= i /\ (Z.to_nat i < length a)%nat.
Proof.
  unfold in_range, len. rewrite andb_true_iff, Z.leb_le, Z.ltb_lt. lia.
Qed.

(** X1: [removeFromQueue] at a position of the queue removes the entry at
    that position and nothing else: the queue is one shorter, the entries
    before the position stay where they are, the later ones move up by one,
    and library, selection and status are untouched. *)
Theorem removeFromQueue_in_range (i : Z) (s : State) :
  in_range i (queue s) = true ->
  let s' := removeFromQueue i s in
  queue s' = delete (Z.to_nat i) (queue s)
  /\ len (queue s') = len (queue s) - 1
  /\ (forall j, j < i -> at_index (queue s') j = at_index (queue s) j)
  /\ (forall j, i <= j -> at_index (queue s') j = at_index (queue s) (j + 1))
  /\ playlists s' = playlists s
  /\ currentPlaylistIndex s' = currentPlaylistIndex s
  /\ currentTrackIndex s' = currentTrackIndex s
  /\ isPlaying s' = isPlaying s.
Proof.
  intros Hin. destruct (in_range_lookup _ _ Hin) as [Hpos Hlt]. cbv zeta.
  rewrite (removeFromQueue_delete i s Hpos).
  split; [reflexivity |]. split; [| split; [| split; [| repeat split]]].
  - unfold len. rewrite length_delete by (apply lookup_lt_is_Some; exact Hlt). lia.
  - intros j Hj. unfold at_index. destruct (Z.ltb_spec j 0); [reflexivity |].
    apply list_lookup_delete_lt. lia.
  - intros j Hj. unfold at_index.
    destruct (Z.ltb_spec j 0); [lia |]. destruct (Z.ltb_spec (j + 1) 0); [lia |].
    rewrite list_lookup_delete_ge by lia. f_equal. lia.
Qed.

Lemma removeFromQueue_in_range_witness :
  queue (removeFromQueue 0 queued) = [] /\ playlists (removeFromQueue 0 queued) = [playlistA].
Proof.
  destruct (removeFromQueue_in_range 0 queued eq_refl) as (Hq & _ & _ & _ & Hp & _).
  split; [exact Hq | exact Hp].
Defined.

(** X2: [removeFromQueue] at a position outside the queue (negative, or
    not below its length) changes nothing at all. *)
Theorem removeFromQueue_out_of_range (i : Z) (s : State) :
  in_range i (queue s) = false -> removeFromQueue i s = s.
Proof.
  intros Hout. unfold removeFromQueue.
  rewrite (filter_index_keep_all (queue s) 0 i).
  - destruct s; reflexivity.
  - unfold in_range in Hout. rewrite andb_false_iff, Z.leb_gt, Z.ltb_ge in Hout. lia.
Qed.

Lemma removeFromQueue_out_of_range_witness : removeFromQueue 1 queued = queued.
Proof. apply (removeFromQueue_out_of_range 1 queued). reflexivity. Defined.

(** X3: removing the first entry by hand and letting the end of a track
    take it leave the same queue, in every state. *)
Theorem removeFromQueue_head_is_playNext_queue (s : State) :
  queue (removeFromQueue 0 s) = queue (playNext s).
Proof.
  rewrite (removeFromQueue_delete 0 s) by lia.
  destruct (queue s) as [| head rest] eqn:Hq.
  - rewrite (playNext_no_queue s Hq). destruct (currentPlaylist s); simpl; congruence.
  - rewrite (playNext_queued s head rest Hq). reflexivity.
Qed.

(** ** The queue is first-in first-out *)

Lemma enqueue_all_state (entries : list QueuedTrack) (s : State) :
  enqueue_all entries s = setQueue (queue s ++ entries) s.
Proof.
  unfold enqueue_all. revert s. induction entries as [| e entries IH]; intros s; simpl.
  - rewrite app_nil_r. destruct s; reflexivity.
  - rewrite IH, addToQueue_state. simpl. rewrite <- app_assoc.
    destruct e; reflexivity.
Qed.

Lemma iter_handleEnded_queue (k : nat) (s : State) :
  (k <= length (queue s))%nat ->
  queue (Nat.iter k handleEnded s) = drop k (queue s)
  /\ playlists (Nat.iter k handleEnded s) = playlists s.
Proof.
  induction k as [| k IH]; intros Hk; simpl.
  - rewrite drop_0. split; reflexivity.
  - destruct IH as [Hq Hp]; [lia |].
    destruct (lookup_lt_is_Some_2 (queue s) k) as [e He]; [lia |].
    rewrite (drop_S _ _ _ He) in Hq.
    pose proof (playNext_queued _ e _ Hq) as Hnext.
    change (playNext (Nat.iter k handleEnded s))
      with (handleEnded (Nat.iter k handleEnded s)) in Hnext.
    rewrite Hnext. simpl. split; [reflexivity | exact Hp].
Qed.

(** X4: entries are played in the order they were added.  After adding
    [entries] behind what is already queued, the [k+1]-th end of track
    selects the entry at position [k] of the whole queue, sets the status
    to playing and leaves the entries after it, in order. *)
Theorem queue_is_fifo (s : State) (entries : list QueuedTrack) (k : nat) (e : QueuedTrack) :
  (queue s ++ entries) !! k = Some e ->
  let s' := Nat.iter (S k) handleEnded (enqueue_all entries s) in
  currentPlaylistIndex s' = Some (playlistIndex e)
  /\ currentTrackIndex s' = Some (trackIndex e)
  /\ isPlaying s' = true
  /\ queue s' = drop (S k) (queue s ++ entries)
  /\ playlists s' = playlists s.
Proof.
  intros He. cbv zeta. rewrite enqueue_all_state.
  set (s0 := setQueue (queue s ++ entries) s).
  assert (k <= length (queue s0))%nat as Hk.
  { apply lookup_lt_Some in He. simpl. lia. }
  destruct (iter_handleEnded_queue k s0 Hk) as [Hq Hp].
  simpl in Hq, Hp. rewrite (drop_S _ _ _ He) in Hq.
  change (Nat.iter (S k) handleEnded s0) with (handleEnded (Nat.iter k handleEnded s0)).
  pose proof (playNext_queued _ e _ Hq) as Hnext.
  change (playNext (Nat.iter k handleEnded s0))
    with (handleEnded (Nat.iter k handleEnded s0)) in Hnext.
  rewrite Hnext. simpl. repeat split. exact Hp.
Qed.

Lemma queue_is_fifo_witness :
  let entries := [{| playlistIndex := 0; trackIndex := 1 |};
                  {| playlistIndex := 0; trackIndex := 0 |}] in
  currentTrackIndex (Nat.iter 2 handleEnded (enqueue_all entries queued)) = Some 1
  /\ queue (Nat.iter 2 handleEnded (enqueue_all entries queued))
     = [{| playlistIndex := 0; trackIndex := 0 |}].
Proof.
  cbv zeta.
  destruct (queue_is_fifo queued
              [{| playlistIndex := 0; trackIndex := 1 |};
               {| playlistIndex := 0; trackIndex := 0 |}]
              1 {| playlistIndex := 0; trackIndex := 1 |} eq_refl)
    as (_ & Ht & _ & Hq & _).
  split; [exact Ht | exact Hq].
Defined.

(** ** Next and Previous inside a playlist *)

Lemma playNext_updater_mod (pl : Playlist) (i : Z) :
  0 <= i < len (tracks pl) ->
  playNext_updater pl (Some i) = (i + 1) mod len (tracks pl).
Proof.
  intros Hi. unfold playNext_updater.
  destruct (Z.eqb_spec i (len (tracks pl) - 1)) as [-> | Hne].
  - replace (len (tracks pl) - 1 + 1) with (len (tracks pl)) by lia.
    rewrite Z_mod_same_full. reflexivity.
  - rewrite Z.mod_small by lia. reflexivity.
Qed.

Lemma playPrevious_updater_mod (pl : Playlist) (i : Z) :
  0 <= i < len (tracks pl) ->
  playPrevious_updater pl (Some i) = (i - 1) mod len (tracks pl).
Proof.
  intros Hi. unfold playPrevious_updater.
  destruct (Z.eqb_spec i 0) as [-> | Hne].
  - replace (0 - 1) with (-1 * len (tracks pl) + (len (tracks pl) - 1)) by lia.
    rewrite Z.add_comm, Z_mod_plus_full, Z.mod_small by lia. reflexivity.
  - rewrite Z.mod_small by lia. reflexivity.
Qed.


Lemma playPrevious_in (s : State) (pl : Playlist) :
  currentPlaylist s = Some pl ->
  playPrevious s
  = setIsPlaying true
      (setCurrentTrackIndex (Some (playPrevious_updater pl (currentTrackIndex s))) s).
Proof. intros Hpl. unfold playPrevious. rewrite Hpl. reflexivity. Qed.




(** X6: with nothing queued and the selection inside the playlist,
    Previous undoes Next and Next undoes Previous: the track index is back
    where it was, in the same playlist. *)
Theorem Next_Previous_inverse (s : State) (pl : Playlist) (i : Z) :
  queue s = [] -> currentPlaylist s = Some pl -> currentTrackIndex s = Some i ->
  0 <= i < len (tracks pl) ->
  currentTrackIndex (playPrevious (playNext s)) = Some i
  /\ currentTrackIndex (playNext (playPrevious s)) = Some i
  /\ currentPlaylistIndex (playPrevious (playNext s)) = currentPlaylistIndex s
  /\ currentPlaylistIndex (playNext (playPrevious s)) = currentPlaylistIndex s.
Proof.
  intros Hq Hpl Hi Hrange.
  assert (playNext s
          = setIsPlaying true (setCurrentTrackIndex (Some ((i + 1) mod len (tracks pl))) s))
    as Hnext.
  { rewrite (playNext_no_queue s Hq), Hpl, Hi, playNext_updater_mod by lia. reflexivity. }
  assert (playPrevious s
          = setIsPlaying true (setCurrentTrackIndex (Some ((i - 1) mod len (tracks pl))) s))
    as Hprev.
  { rewrite (playPrevious_in s pl Hpl), Hi, playPrevious_updater_mod by lia. reflexivity. }
  rewrite Hnext, Hprev.
  assert (0 <= (i + 1) mod len (tracks pl) < len (tracks pl)) as Hr1
    by (apply Z.mod_pos_bound; lia).
  assert (0 <= (i - 1) mod len (tracks pl) < len (tracks pl)) as Hr2
    by (apply Z.mod_pos_bound; lia).
  repeat split.
  - rewrite (playPrevious_in
               (setIsPlaying true
                  (setCurrentTrackIndex (Some ((i + 1) mod len (tracks pl))) s)) pl Hpl).
    cbn [currentTrackIndex setIsPlaying setCurrentTrackIndex].
    rewrite playPrevious_updater_mod by exact Hr1.
    rewrite Zminus_mod_idemp_l. replace (i + 1 - 1) with i by lia.
    rewrite Z.mod_small by lia. reflexivity.
  - rewrite playNext_no_queue by exact Hq.
    change (currentPlaylist (setIsPlaying true (setCurrentTrackIndex _ s)))
      with (currentPlaylist s).
    rewrite Hpl. cbn [currentTrackIndex setIsPlaying setCurrentTrackIndex].
    rewrite playNext_updater_mod by exact Hr2.
    rewrite Z.add_mod_idemp_l by lia. replace (i - 1 + 1) with i by lia.
    rewrite Z.mod_small by lia. reflexivity.
  - rewrite (playPrevious_in
               (setIsPlaying true
                  (setCurrentTrackIndex (Some ((i + 1) mod len (tracks pl))) s)) pl Hpl).
    reflexivity.
  - rewrite playNext_no_queue by exact Hq.
    change (currentPlaylist (setIsPlaying true (setCurrentTrackIndex _ s)))
      with (currentPlaylist s).
    rewrite Hpl. reflexivity.
Qed.

Lemma Next_Previous_inverse_witness :
  currentTrackIndex (playPrevious (playNext loaded)) = Some 0
  /\ currentTrackIndex (playNext (playPrevious loaded)) = Some 0.
Proof.
  destruct (Next_Previous_inverse loaded playlistA 0 eq_refl eq_refl eq_refl)
    as (H1 & H2 & _); [vm_compute; split; [discriminate | reflexivity] |].
  split; [exact H1 | exact H2].
Defined.

(** X7: when the only track of the selected playlist ends while playing
    and nothing is queued, the end-of-track transition leaves the state
    exactly as it was: the selection does not move and the status stays
    playing. *)
Theorem handleEnded_single_track (s : State) (pl : Playlist) :
  queue s = [] -> currentPlaylist s = Some pl -> len (tracks pl) = 1 ->
  currentTrackIndex s = Some 0 -> isPlaying s = true ->
  handleEnded s = s.
Proof.
  intros Hq Hpl Hone Hi Hplaying. unfold handleEnded.
  rewrite (playNext_no_queue s Hq), Hpl. unfold playNext_updater.
  rewrite Hi, Hone. cbn [Z.eqb Z.sub Z.add Z.opp Z.pos_sub].
  destruct s; simpl in *. subst. reflexivity.
Qed.

Lemma handleEnded_single_track_witness :
  let single :=
    {| playlists := [{| playlistName := "one.zip"; tracks := [track "only.mp3"] |}];
       queue := []; currentPlaylistIndex := Some 0; currentTrackIndex := Some 0;
       isPlaying := true |} in
  handleEnded single = single.
Proof.
  cbv zeta.
  apply (handleEnded_single_track _
           {| playlistName := "one.zip"; tracks := [track "only.mp3"] |});
    reflexivity.
Defined.

(** ** Play and pause *)

(** X8: [togglePlayPause] is its own inverse; it does nothing while no
    track index is set, flips the playing flag otherwise, and never touches
    the library, the queue or the selection. *)
Theorem togglePlayPause_involutive (s : State) :
  togglePlayPause (togglePlayPause s) = s
  /\ match currentTrackIndex s with
     | None => togglePlayPause s = s
     | Some _ => isPlaying (togglePlayPause s) = negb (isPlaying s)
     end
  /\ playlists (togglePlayPause s) = playlists s
  /\ queue (togglePlayPause s) = queue s
  /\ currentPlaylistIndex (togglePlayPause s) = currentPlaylistIndex s
  /\ currentTrackIndex (togglePlayPause s) = currentTrackIndex s.
Proof.
  destruct s as [pls q p t playing]. unfold togglePlayPause. simpl.
  destruct t; simpl; rewrite ?negb_involutive; repeat split.
Qed.

(** ** What every state of the player satisfies *)

Lemma at_index_app_l {A : Type} (a b : list A) (i : Z) (x : A) :
  at_index a i = Some x -> at_index (a ++ b) i = Some x.
Proof.
  unfold at_index. destruct (i <? 0); [discriminate |]. apply lookup_app_l_Some.
Qed.

Lemma at_index_first {A : Type} (a : list A) : a <> [] -> is_Some (at_index a 0).
Proof. destruct a as [| x a]; [contradiction | intros _; exists x; reflexivity]. Qed.

Lemma valid_pair_grow (s s' : State) (p t : Z) (added : list Playlist) :
  playlists s' = playlists s ++ added -> valid_pair s p t -> valid_pair s' p t.
Proof.
  intros Hgrow (pl & Hpl & Ht). exists pl. split; [| exact Ht].
  rewrite Hgrow. apply at_index_app_l, Hpl.
Qed.

Lemma currentTrack_valid_pair (s : State) :
  is_Some (currentTrack s)
  <-> exists p t, currentPlaylistIndex s = Some p /\ currentTrackIndex s = Some t
                  /\ valid_pair s p t.
Proof.
  unfold currentTrack, currentPlaylist, valid_pair. split.
  - intros Hsome. destruct (currentPlaylistIndex s) as [p |]; [| destruct Hsome; discriminate].
    destruct (at_index (playlists s) p) as [pl |] eqn:Hpl; [| destruct Hsome; discriminate].
    destruct (currentTrackIndex s) as [t |]; [| destruct Hsome; discriminate].
    exists p, t. eauto.
  - intros (p & t & -> & -> & pl & -> & Ht). exact Ht.
Qed.

Lemma Array_sort_nonempty {A : Type} (compareFn : A -> A -> Z) (a : list A) :
  a <> [] -> Array_sort compareFn a <> [].
Proof.
  intros Hne Hnil. pose proof (Array_sort_perm compareFn a) as Hperm.
  apply Permutation_length in Hperm. rewrite Hnil in Hperm.
  destruct a; [contradiction | discriminate Hperm].
Qed.

Lemma filter_index_Forall {A : Type} (P : A -> Prop) (keep : Z -> bool) (i : Z) (a : list A) :
  Forall P a -> Forall P (filter_index keep i a).
Proof.
  intros Hall. revert i. induction Hall as [| x a Hx Hall IH]; intros i; simpl; [constructor |].
  destruct (keep i); [constructor; [exact Hx |] |]; apply IH.
Qed.

Lemma updaters_in_range (pl : Playlist) (i : Z) :
  in_range i (tracks pl) = true ->
  in_range (playNext_updater pl (Some i)) (tracks pl) = true
  /\ in_range (playPrevious_updater pl (Some i)) (tracks pl) = true.
Proof.
  unfold in_range, playNext_updater, playPrevious_updater.
  rewrite !andb_true_iff, !Z.leb_le, !Z.ltb_lt. intros Hi.
  destruct (Z.eqb_spec i (len (tracks pl) - 1)); destruct (Z.eqb_spec i 0); lia.
Qed.

Lemma selection_resolves_intro (s : State) (p t : Z) :
  currentPlaylistIndex s = Some p -> currentTrackIndex s = Some t -> valid_pair s p t ->
  selection_resolves s.
Proof. intros Hp Ht Hv. right. apply currentTrack_valid_pair. eauto. Qed.

Lemma selected_playlist_track (s : State) (pl : Playlist) :
  selection_resolves s -> currentPlaylist s = Some pl ->
  exists p t, currentPlaylistIndex s = Some p /\ currentTrackIndex s = Some t
              /\ at_index (playlists s) p = Some pl /\ in_range t (tracks pl) = true.
Proof.
  intros [[_ Hnone] | Hsome] Hpl.
  - unfold currentPlaylist in Hpl. rewrite Hnone in Hpl. discriminate.
  - apply currentTrack_valid_pair in Hsome as (p & t & Hp & Ht & pl' & Hpl' & Htrack).
    unfold currentPlaylist in Hpl. rewrite Hp, Hpl' in Hpl. injection Hpl as ->.
    exists p, t. repeat split; try assumption. apply at_index_in_range, Htrack.
Qed.

Lemma playNext_player_wf (s : State) : player_wf s -> player_wf (playNext s).
Proof.
  intros (Hlib & Hqueue & Hsel). destruct (queue s) as [| head rest] eqn:Hq.
  - rewrite (playNext_no_queue s Hq).
    destruct (currentPlaylist s) as [pl |] eqn:Hpl; [| repeat split; assumption].
    destruct (selected_playlist_track s pl Hsel Hpl) as (p & t & Hp & Ht & Hat & Hrange).
    repeat split; [exact Hlib | exact Hqueue |].
    apply (selection_resolves_intro _ p (playNext_updater pl (currentTrackIndex s)));
      [exact Hp | reflexivity |].
    exists pl. split; [exact Hat |]. rewrite Ht.
    apply at_index_in_range, updaters_in_range, Hrange.
  - rewrite (playNext_queued s head rest Hq).
    unfold queue_wf in Hqueue. rewrite Hq in Hqueue.
    apply Forall_cons in Hqueue as [Hhead Hrest].
    repeat split; [exact Hlib | exact Hrest |].
    apply (selection_resolves_intro _ (playlistIndex head) (trackIndex head));
      [reflexivity | reflexivity | exact Hhead].
Qed.

Lemma handleFileUpload_player_wf
    (localeCompare : string -> string -> Z) (fileName : string) (zip : Archive) (s : State) :
  player_wf s -> player_wf (handleFileUpload localeCompare fileName zip s).1.
Proof.
  intros (Hlib & Hqueue & Hsel). unfold handleFileUpload.
  destruct zip as [| audioFiles]; [repeat split; assumption |].
  destruct (Z.ltb_spec 0 (len audioFiles)) as [Hlen |]; [| repeat split; assumption].
  assert (audioFiles <> []) as Hne by (intros ->; discriminate Hlen).
  set (newPlaylist :=
         {| playlistName := fileName;
            tracks := Array_sort (fun a b => localeCompare (name a) (name b)) audioFiles |}).
  assert (Forall (fun pl => tracks pl <> []) (playlists s ++ [newPlaylist])) as Hlib'.
  { apply Forall_app. split; [exact Hlib |].
    constructor; [apply Array_sort_nonempty, Hne | constructor]. }
  destruct (currentPlaylistIndex s) as [p |] eqn:Hp.
  - repeat split; [exact Hlib' | |].
    + eapply Forall_impl; [exact Hqueue |]. intros e He.
      apply (valid_pair_grow s) with (added := [newPlaylist]); [reflexivity | exact He].
    + destruct Hsel as [[_ Hnone] | Hsome]; [congruence |].
      apply currentTrack_valid_pair in Hsome as (p' & t & Hp' & Ht & Hv).
      apply (selection_resolves_intro _ p' t); [exact Hp' | exact Ht |].
      apply (valid_pair_grow s) with (added := [newPlaylist]); [reflexivity | exact Hv].
  - repeat split; [exact Hlib' | |].
    + eapply Forall_impl; [exact Hqueue |]. intros e He.
      apply (valid_pair_grow s) with (added := [newPlaylist]); [reflexivity | exact He].
    + apply (selection_resolves_intro _ 0 0); [reflexivity | reflexivity |].
      destruct Hsel as [[Hempty _] | Hsome].
      * exists newPlaylist. simpl. rewrite Hempty. split; [reflexivity |].
        apply at_index_first, Array_sort_nonempty, Hne.
      * apply currentTrack_valid_pair in Hsome as (p' & _ & Hp' & _). simpl in Hp'. congruence.
Qed.

Lemma dispatch_player_wf (localeCompare : string -> string -> Z) (s : State) (e : Event) :
  player_wf s -> rendered e s = true -> player_wf (dispatch localeCompare e s).1.
Proof.
  intros Hwf Hrendered.
  destruct e as [fileName zip | index | | | | index | p index | index |]; simpl.
  - apply handleFileUpload_player_wf, Hwf.
  - destruct Hwf as (Hlib & Hqueue & Hsel). unfold handlePlaylistChange.
    destruct (negb _); [| repeat split; assumption].
    repeat split; [exact Hlib | exact Hqueue |].
    simpl in Hrendered. apply andb_true_iff in Hrendered as [_ Hrange].
    apply at_index_in_range in Hrange as [pl Hpl].
    apply (selection_resolves_intro _ index 0); [reflexivity | reflexivity |].
    exists pl. split; [exact Hpl |]. apply at_index_first.
    unfold at_index in Hpl. destruct (index <? 0); [discriminate |].
    exact (Forall_lookup_1 _ _ _ _ Hlib Hpl).
  - destruct Hwf as (Hlib & Hqueue & Hsel). unfold playPrevious.
    destruct (currentPlaylist s) as [pl |] eqn:Hpl; [| repeat split; assumption].
    destruct (selected_playlist_track s pl Hsel Hpl) as (p & t & Hp & Ht & Hat & Hrange).
    repeat split; [exact Hlib | exact Hqueue |].
    apply (selection_resolves_intro _ p (playPrevious_updater pl (currentTrackIndex s)));
      [exact Hp | reflexivity |].
    exists pl. split; [exact Hat |]. rewrite Ht.
    apply at_index_in_range, updaters_in_range, Hrange.
  - destruct Hwf as (Hlib & Hqueue & Hsel). unfold togglePlayPause.
    destruct (currentTrackIndex s) eqn:Ht; repeat split; assumption.
  - apply playNext_player_wf, Hwf.
  - destruct Hwf as (Hlib & Hqueue & Hsel). simpl in Hrendered.
    destruct (currentPlaylist s) as [pl |] eqn:Hpl; [| discriminate].
    destruct (selected_playlist_track s pl Hsel Hpl) as (p & t & Hp & Ht & Hat & _).
    repeat split; [exact Hlib | exact Hqueue |].
    apply (selection_resolves_intro _ p index); [exact Hp | reflexivity |].
    exists pl. split; [exact Hat | apply at_index_in_range, Hrendered].
  - destruct Hwf as (Hlib & Hqueue & Hsel). rewrite addToQueue_state.
    repeat split; [exact Hlib | | exact Hsel].
    apply Forall_app. split; [exact Hqueue |].
    constructor; [| constructor]. exact (Plus_click_valid_pair s p index Hrendered).
  - destruct Hwf as (Hlib & Hqueue & Hsel).
    repeat split; [exact Hlib | | exact Hsel].
    apply filter_index_Forall, Hqueue.
  - apply playNext_player_wf, Hwf.
Qed.

Lemma reachable_player_wf (localeCompare : string -> string -> Z) (s : State) :
  reachable localeCompare s -> player_wf s.
Proof.
  unfold reachable. revert s. apply (rtc_ind_r player_wf).
  - repeat split; [constructor | constructor | left; split; reflexivity].
  - intros s1 s2 _ (e & Hrendered & <-) IH.
    apply dispatch_player_wf; assumption.
Qed.

(** X9: in every state the player can reach, either nothing has been
    loaded yet and the state is the initial one, or the selection is a
    track of the library: the current track is defined, and with it the
    transport buttons are on the page. *)
Theorem reachable_selection_is_a_track (localeCompare : string -> string -> Z) (s : State) :
  reachable localeCompare s ->
  s = init
  \/ (is_Some (currentTrack s)
      /\ rendered SkipBack_click s = true
      /\ rendered PlayPause_click s = true
      /\ rendered SkipForward_click s = true).
Proof.
  intros Hreach. destruct (reachable_player_wf localeCompare s Hreach) as (_ & _ & Hsel).
  destruct Hsel as [[Hempty _] | Hsome].
  - left. exact (reachable_empty_library localeCompare s Hreach Hempty).
  - right. split; [exact Hsome |].
    assert (is_Some (currentPlaylist s)) as Hpl.
    { unfold currentTrack in Hsome. destruct (currentPlaylist s); [eauto |].
      destruct Hsome; discriminate. }
    simpl. rewrite !bool_decide_eq_true_2 by assumption. auto.
Qed.

Lemma reachable_selection_is_a_track_witness :
  queued = init \/ (is_Some (currentTrack queued)
                    /\ rendered SkipBack_click queued = true
                    /\ rendered PlayPause_click queued = true
                    /\ rendered SkipForward_click queued = true).
Proof. apply (reachable_selection_is_a_track collate queued). apply queued_reachable. Defined.

Lemma queue_wf_rows (s : State) : queue_wf s -> is_Some (queue_rows s).
Proof.
  intros Hqueue. apply mapM_is_Some. eapply Forall_impl; [exact Hqueue |].
  intros e (pl & Hpl & [t Ht]). unfold compose, queue_row. rewrite Hpl, Ht. eauto.
Qed.

(** X10: in every state the player can reach, each queued entry resolves
    to a track of the library, so the queue panel renders one row per entry
    and the reads [playlist.tracks] and [track.name] in it never throw. *)
Theorem reachable_queue_resolves (localeCompare : string -> string -> Z) (s : State) :
  reachable localeCompare s ->
  queue_wf s
  /\ exists rows, queue_rows s = Some rows /\ length rows = length (queue s).
Proof.
  intros Hreach. destruct (reachable_player_wf localeCompare s Hreach) as (_ & Hqueue & _).
  split; [exact Hqueue |].
  destruct (queue_wf_rows s Hqueue) as [rows Hrows]. exists rows. split; [exact Hrows |].
  symmetry. exact (length_mapM _ _ _ Hrows).
Qed.

Lemma reachable_queue_resolves_witness :
  exists rows, queue_rows queued = Some rows /\ length rows = 1%nat.
Proof.
  destruct (reachable_queue_resolves collate queued queued_reachable) as [_ Hrows].
  exact Hrows.
Defined.

(** What a handler does to the library: nothing, or one playlist appended
    that holds the sorted tracks of a non-empty upload. *)
Lemma dispatch_playlists_cases (localeCompare : string -> string -> Z) (e : Event) (s : State) :
  playlists (dispatch localeCompare e s).1 = playlists s
  \/ exists fileName audioFiles,
       audioFiles <> []
       /\ playlists (dispatch localeCompare e s).1
          = playlists s
            ++ [{| playlistName := fileName;
                   tracks := Array_sort (by_name localeCompare) audioFiles |}].
Proof.
  destruct e as [fileName zip | index | | | | index | p index | index |]; simpl;
    try (left; reflexivity).
  - unfold handleFileUpload. destruct zip as [| audioFiles]; [left; reflexivity |].
    destruct (Z.ltb_spec 0 (len audioFiles)) as [Hlen |]; [| left; reflexivity].
    right. exists fileName, audioFiles.
    split; [intros ->; discriminate Hlen |].
    destruct (currentPlaylistIndex s); reflexivity.
  - left. unfold handlePlaylistChange. destruct (negb _); reflexivity.
  - left. unfold playPrevious. destruct (currentPlaylist s); reflexivity.
  - left. unfold togglePlayPause. destruct (currentTrackIndex s); reflexivity.
  - left. unfold playNext. destruct (0 <? len (queue s)).
    + destruct (at_index (queue s) 0); reflexivity.
    + destruct (currentPlaylist s); reflexivity.
  - left. rewrite addToQueue_state. reflexivity.
  - left. unfold handleEnded, playNext. destruct (0 <? len (queue s)).
    + destruct (at_index (queue s) 0); reflexivity.
    + destruct (currentPlaylist s); reflexivity.
Qed.

(** X11: in every state the player can reach, every playlist of the
    library has at least one track, and, the host's [localeCompare] being a
    consistent comparator, its tracks are in the order of [localeCompare]
    on their names. *)
Theorem reachable_playlists_sorted (localeCompare : string -> string -> Z) (s : State) :
  ConsistentComparator localeCompare -> reachable localeCompare s ->
  Forall (fun pl => tracks pl <> []
                    /\ StronglySorted (fun a b => by_name localeCompare a b <= 0) (tracks pl))
         (playlists s).
Proof.
  intros Hcons. unfold reachable. revert s.
  apply (rtc_ind_r
           (fun s => Forall (fun pl => tracks pl <> []
                       /\ StronglySorted (fun a b => by_name localeCompare a b <= 0)
                            (tracks pl)) (playlists s))).
  - constructor.
  - intros s1 s2 _ (e & _ & <-) IH.
    destruct (dispatch_playlists_cases localeCompare e s1)
      as [-> | (fileName & audioFiles & Hne & ->)]; [exact IH |].
    apply Forall_app. split; [exact IH |].
    constructor; [| constructor]. simpl. split.
    + apply Array_sort_nonempty, Hne.
    + apply Array_sort_sorted, by_name_consistent, Hcons.
Qed.

Lemma reachable_playlists_sorted_witness :
  Forall (fun pl => tracks pl <> []
                    /\ StronglySorted (fun a b => by_name collate a b <= 0) (tracks pl))
         (playlists queued).
Proof.
  apply (reachable_playlists_sorted collate queued collate_consistent queued_reachable).
Defined.

(** X12: the library only grows.  Along any run of the player the
    playlists of the earlier state are a prefix of those of the later
    state, so a playlist index keeps meaning the same playlist, with the
    same tracks in the same order. *)
Theorem playlists_only_grow (localeCompare : string -> string -> Z) (s s' : State) :
  rtc (step localeCompare) s s' ->
  (exists added, playlists s' = playlists s ++ added)
  /\ forall i pl, at_index (playlists s) i = Some pl -> at_index (playlists s') i = Some pl.
Proof.
  intros Hrun.
  assert (exists added, playlists s' = playlists s ++ added) as [added Hadded].
  { revert s' Hrun.
    apply (rtc_ind_r (fun s' => exists added, playlists s' = playlists s ++ added)).
    - exists []. rewrite app_nil_r. reflexivity.
    - intros s1 s2 _ (e & _ & <-) [added Hadded].
      destruct (dispatch_playlists localeCompare e s1) as [more Hmore].
      exists (added ++ more). rewrite Hmore, Hadded, app_assoc. reflexivity. }
  split; [exists added; exact Hadded |].
  intros i pl Hpl. rewrite Hadded. apply at_index_app_l, Hpl.
Qed.

Lemma playlists_only_grow_witness :
  at_index (playlists queued) 0 = Some playlistA.
Proof.
  assert (rtc (step collate) loaded queued) as Hrun.
  { apply rtc_once. exists (Plus_click 0 2). split; reflexivity. }
  apply (proj2 (playlists_only_grow collate loaded queued Hrun)).
  reflexivity.
Defined.

(** X13: an upload does not disturb what is selected.  When the current
    track is defined, any upload (readable or not, with or without audio
    entries) leaves the current track, both indices, the playing flag and
    the queue as they were. *)
Theorem upload_keeps_selection
    (localeCompare : string -> string -> Z) (fileName : string) (zip : Archive) (s : State) :
  is_Some (currentTrack s) ->
  let s' := (handleFileUpload localeCompare fileName zip s).1 in
  currentTrack s' = currentTrack s
  /\ currentPlaylistIndex s' = currentPlaylistIndex s
  /\ currentTrackIndex s' = currentTrackIndex s
  /\ isPlaying s' = isPlaying s
  /\ queue s' = queue s.
Proof.
  intros Hsome. cbv zeta.
  pose proof Hsome as Hsome'.
  apply currentTrack_valid_pair in Hsome' as (p & t & Hp & Ht & pl & Hpl & _).
  unfold handleFileUpload. destruct zip as [| audioFiles]; [repeat split |].
  destruct (0 <? len audioFiles); [| repeat split].
  rewrite Hp. simpl. repeat split; [| exact Hp].
  unfold currentTrack, currentPlaylist. simpl. rewrite Hp, Hpl.
  rewrite (at_index_app_l _ _ _ _ Hpl). reflexivity.
Qed.

Lemma upload_keeps_selection_witness :
  currentTrack (handleFileUpload collate "more.zip" (Extracted [track "a.mp3"]) queued).1
  = Some (track "t1.mp3").
Proof.
  destruct (upload_keeps_selection collate "more.zip" (Extracted [track "a.mp3"]) queued)
    as (Htrack & _); [exists (track "t1.mp3"); reflexivity |].
  rewrite Htrack. reflexivity.
Defined.

(** X14: the add button of a track row never fails.  For a click the view
    offers, [addToQueue] appends exactly the clicked (playlist, track) pair
    at the end of the queue, shows one success toast that names that track,
    and changes nothing else. *)
Theorem Plus_click_enqueues (s : State) (p index : Z) :
  rendered (Plus_click p index) s = true ->
  exists pl t,
    currentPlaylist s = Some pl /\ at_index (tracks pl) index = Some t
    /\ (addToQueue p index s).2 = [ToastSuccess ("'" ++ name t ++ "' added to queue")%string]
    /\ queue (addToQueue p index s).1
       = queue s ++ [{| playlistIndex := p; trackIndex := index |}]
    /\ playlists (addToQueue p index s).1 = playlists s
    /\ currentPlaylistIndex (addToQueue p index s).1 = currentPlaylistIndex s
    /\ currentTrackIndex (addToQueue p index s).1 = currentTrackIndex s
    /\ isPlaying (addToQueue p index s).1 = isPlaying s.
Proof.
  intros Hrendered. simpl in Hrendered.
  destruct (currentPlaylist s) as [pl |] eqn:Hpl; [| discriminate].
  apply andb_true_iff in Hrendered as [Hp Hrange].
  apply bool_decide_eq_true in Hp.
  apply at_index_in_range in Hrange as [t Ht].
  exists pl, t. split; [reflexivity |]. split; [exact Ht |].
  unfold currentPlaylist in Hpl. rewrite Hp in Hpl.
  unfold addToQueue. rewrite Hpl, Ht. simpl. repeat split.
Qed.

Lemma Plus_click_enqueues_witness :
  (addToQueue 0 2 loaded).2 = [ToastSuccess "'t3.mp3' added to queue"].
Proof.
  destruct (Plus_click_enqueues loaded 0 2 eq_refl) as (pl & t & Hpl & Ht & Htoast & _).
  injection Hpl as <-. injection Ht as <-. exact Htoast.
Defined.

(** ** The accent on the current track's row *)

Lemma findIndex_from_first {A : Type} (P : A -> bool) (a : list A) (base : Z) (n : nat) (x : A) :
  a !! n = Some x -> P x = true ->
  findIndex_from P base a = base + Z.of_nat n
  <-> forall j y, (j < n)%nat -> a !! j = Some y -> P y = false.
Proof.
  revert base n. induction a as [| y a IH]; intros base n Hx HP; [discriminate |].
  destruct n as [| n]; cbn [findIndex_from].
  - injection Hx as ->. rewrite HP. split; [intros _ j z Hj; lia | intros _; lia].
  - change ((y :: a) !! S n) with (a !! n) in Hx.
    destruct (P y) eqn:HPy.
    + split; [lia |]. intros Hall. specialize (Hall 0%nat y).
      rewrite Hall in HPy; [discriminate | lia | reflexivity].
    + replace (base + Z.of_nat (S n)) with (base + 1 + Z.of_nat n) by lia.
      rewrite (IH (base + 1) n Hx HP). split.
      * intros Hall [| j] z Hj Hz; simpl in Hz; [congruence |].
        apply (Hall j z); [lia | exact Hz].
      * intros Hall j z Hj Hz. apply (Hall (S j) z); [lia | exact Hz].
Qed.

(** X15: the row of track [index] of the shown playlist carries the accent
    exactly when [index] is the current track index and no playlist earlier
    in the library has the same name as the current playlist.  So after the
    same file name has been uploaded twice, no row of the second playlist is
    ever accented. *)
Theorem highlighted_iff (s : State) (pl : Playlist) (p index : Z) :
  currentPlaylistIndex s = Some p -> currentPlaylist s = Some pl ->
  highlighted index s = true
  <-> currentTrackIndex s = Some index
      /\ forall j pl', 0 <= j < p -> at_index (playlists s) j = Some pl' ->
                       playlistName pl' <> playlistName pl.
Proof.
  intros Hp Hpl. unfold highlighted. rewrite Hpl, Hp.
  unfold currentPlaylist in Hpl. rewrite Hp in Hpl.
  assert (0 <= p /\ playlists s !! Z.to_nat p = Some pl) as [Hpos Hlookup].
  { unfold at_index in Hpl. destruct (Z.ltb_spec p 0); [discriminate | split; [lia | exact Hpl]]. }
  rewrite andb_true_iff, !bool_decide_eq_true.
  pose proof (findIndex_from_first
                (fun q => String.eqb (playlistName q) (playlistName pl))
                (playlists s) 0 (Z.to_nat p) pl Hlookup (String.eqb_refl _)) as Hfirst.
  rewrite Z.add_0_l, Z2Nat.id in Hfirst by exact Hpos.
  fold (findIndex (fun q => String.eqb (playlistName q) (playlistName pl)) (playlists s))
    in Hfirst.
  split.
  - intros [Ht Hfind]. split; [congruence |].
    injection Hfind as Hfind. symmetry in Hfind.
    pose proof (proj1 Hfirst Hfind) as Hall.
    intros j pl' Hj Hpl' Hname. unfold at_index in Hpl'.
    destruct (Z.ltb_spec j 0); [lia |].
    specialize (Hall (Z.to_nat j) pl' ltac:(lia) Hpl').
    apply String.eqb_neq in Hall. contradiction.
  - intros [Ht Hnames]. split; [congruence |]. f_equal. symmetry. apply (proj2 Hfirst).
    intros j pl' Hj Hpl'. apply String.eqb_neq.
    apply (Hnames (Z.of_nat j) pl'); [lia |].
    unfold at_index. destruct (Z.ltb_spec (Z.of_nat j) 0); [lia |].
    rewrite Nat2Z.id. exact Hpl'.
Qed.

Lemma highlighted_iff_witness :
  highlighted 0 loaded = true /\ highlighted 1 loaded = false.
Proof.
  split.
  - apply (highlighted_iff loaded playlistA 0 0 eq_refl eq_refl).
    split; [reflexivity | intros j pl' Hj; lia].
  - destruct (highlighted 1 loaded) eqn:Hh; [| reflexivity].
    apply (highlighted_iff loaded playlistA 0 1 eq_refl eq_refl) in Hh as [Ht _].
    discriminate Ht.
Defined.

(** ** The queue revision against the revision without a queue *)

(** X16: as long as the queue is empty, the queue revision behaves as the
    revision without a queue: for every event of the older view, the same
    element is rendered under the same condition, its handler leads to the
    same library, selection and status, and the queue is still empty. *)
Theorem queue_revision_extends
    (localeCompare : string -> string -> Z) (e : NoQueueView.Event) (s : State) :
  queue s = [] ->
  rendered (with_queue_event e) s = NoQueueView.rendered e (without_queue s)
  /\ without_queue (dispatch localeCompare (with_queue_event e) s).1
     = NoQueueView.dispatch localeCompare e (without_queue s)
  /\ queue (dispatch localeCompare (with_queue_event e) s).1 = [].
Proof.
  intros Hq. split; [destruct e; reflexivity |].
  destruct e as [fileName zip | index | | | | index |]; simpl.
  - unfold handleFileUpload, NoQueue.handleFileUpload.
    destruct zip as [| audioFiles]; [split; [reflexivity | exact Hq] |].
    destruct (0 <? len audioFiles); [| split; [reflexivity | exact Hq]].
    simpl. destruct (currentPlaylistIndex s) eqn:Hp; simpl;
      (split; [unfold without_queue; simpl; rewrite ?Hp; reflexivity | exact Hq]).
  - unfold handlePlaylistChange, NoQueueView.handlePlaylistChange. simpl.
    destruct (negb _); (split; [reflexivity | exact Hq]).
  - unfold playPrevious, NoQueueView.playPrevious, NoQueue.currentPlaylist, currentPlaylist.
    simpl. destruct (currentPlaylistIndex s) as [p |] eqn:Hp;
      [| split; [reflexivity | exact Hq]].
    destruct (at_index (playlists s) p); [| split; [reflexivity | exact Hq]].
    split; [unfold without_queue; simpl; rewrite Hp; reflexivity | exact Hq].
  - unfold togglePlayPause, NoQueueView.togglePlayPause. simpl.
    destruct (currentTrackIndex s) eqn:Ht; [| split; [reflexivity | exact Hq]].
    split; [unfold without_queue; simpl; rewrite Ht; reflexivity | exact Hq].
  - split; [apply playNext_without_queue, Hq |].
    rewrite (playNext_no_queue s Hq). destruct (currentPlaylist s); exact Hq.
  - split; [reflexivity | exact Hq].
  - split; [apply playNext_without_queue, Hq |]. unfold handleEnded.
    rewrite (playNext_no_queue s Hq). destruct (currentPlaylist s); exact Hq.
Qed.

Lemma queue_revision_extends_witness :
  without_queue (dispatch collate SkipForward_click loaded).1
  = NoQueueView.dispatch collate NoQueueView.SkipForward_click (without_queue loaded).
Proof.
  apply (queue_revision_extends collate NoQueueView.SkipForward_click loaded eq_refl).
Defined.

(** ** The flat playlist of the first revision *)

Lemma Array_sort_of_sorted {A : Type} (compareFn : A -> A -> Z) (a : list A) :
  StronglySorted (fun x y => compareFn x y <= 0) a -> Array_sort compareFn a = a.
Proof.
  induction 1 as [| x a Hsorted IH Hall]; simpl; [reflexivity |].
  rewrite IH. destruct a as [| y a]; simpl; [reflexivity |].
  apply Forall_cons in Hall as [Hxy _].
  destruct (Z.leb_spec (compareFn x y) 0); [reflexivity | lia].
Qed.

Lemma in_range_perm {A : Type} (a b : list A) (i : Z) :
  (length a <= length b)%nat -> in_range i a = true -> in_range i b = true.
Proof.
  unfold in_range, len. rewrite !andb_true_iff, !Z.leb_le, !Z.ltb_lt. lia.
Qed.

(** X17: every upload into the flat playlist leaves it holding exactly the
    old tracks and the uploaded ones, sorted as a whole by [localeCompare]
    on their names, with ties in the order "old tracks first, then upload
    order".  A track index that is set stays as it is, and the playing flag
    is not changed. *)
Theorem Flat_upload_sorted
    (localeCompare : string -> string -> Z) (audioFiles : list Track) (s : Flat.State) :
  ConsistentComparator localeCompare ->
  let s' := (Flat.handleFileUpload localeCompare (Extracted audioFiles) s).1 in
  Flat.playlist s' ≡ₚ Flat.playlist s ++ audioFiles
  /\ StableSorted (by_name localeCompare) (Flat.playlist s ++ audioFiles) (Flat.playlist s')
  /\ Flat.isPlaying s' = Flat.isPlaying s
  /\ (forall i, Flat.currentTrackIndex s = Some i -> Flat.currentTrackIndex s' = Some i).
Proof.
  intros Hcons. cbv zeta. simpl. repeat split.
  - apply Array_sort_perm.
  - apply Array_sort_sorted, by_name_consistent, Hcons.
  - intros k. apply Array_sort_ties, by_name_consistent, Hcons.
  - intros i ->. reflexivity.
Qed.

Lemma Flat_upload_sorted_witness :
  map name
    (Flat.playlist
       (Flat.handleFileUpload collate (Extracted [track "b.mp3"; track "a.mp3"])
          {| Flat.playlist := [track "c.mp3"]; Flat.currentTrackIndex := Some 0;
             Flat.isPlaying := true |}).1)
  ≡ₚ ["c.mp3"; "b.mp3"; "a.mp3"]%string.
Proof.
  destruct (Flat_upload_sorted collate [track "b.mp3"; track "a.mp3"]
              {| Flat.playlist := [track "c.mp3"]; Flat.currentTrackIndex := Some 0;
                 Flat.isPlaying := true |} collate_consistent) as (Hperm & _).
  rewrite Hperm. reflexivity.
Defined.

Lemma Flat_dispatch_wf (localeCompare : string -> string -> Z) (e : Flat.Event) (s : Flat.State) :
  ConsistentComparator localeCompare ->
  StronglySorted (fun a b => by_name localeCompare a b <= 0) (Flat.playlist s)
  /\ (s = Flat.init
      \/ exists i, Flat.currentTrackIndex s = Some i /\ in_range i (Flat.playlist s) = true) ->
  Flat.rendered e s = true ->
  let s' := Flat.dispatch localeCompare e s in
  StronglySorted (fun a b => by_name localeCompare a b <= 0) (Flat.playlist s')
  /\ (s' = Flat.init
      \/ exists i, Flat.currentTrackIndex s' = Some i /\ in_range i (Flat.playlist s') = true).
Proof.
  intros Hcons [Hsorted Hsel] Hrendered. cbv zeta.
  destruct e as [zip | | | | index |]; simpl.
  - destruct zip as [| audioFiles]; simpl; [split; assumption |].
    split; [apply Array_sort_sorted, by_name_consistent, Hcons |].
    destruct Hsel as [-> | (i & Hi & Hrange)]; simpl.
    + destruct audioFiles as [| x a]; [left; reflexivity |].
      right. exists 0. rewrite len_cons.
      destruct (Z.ltb_spec 0 (len a + 1)); [| pose proof (len_nonneg a); lia].
      split; [reflexivity |].
      apply (in_range_perm [x]); [| reflexivity].
      rewrite (Permutation_length (Array_sort_perm _ (x :: a))). simpl. lia.
    + right. exists i. rewrite Hi. split; [reflexivity |].
      apply (in_range_perm (Flat.playlist s)); [| exact Hrange].
      rewrite (Permutation_length (Array_sort_perm _ _)), length_app. lia.
  - unfold Flat.playPrevious. destruct (Z.eqb_spec (len (Flat.playlist s)) 0) as [| Hlen];
      [split; assumption |].
    split; [exact Hsorted |]. right. simpl.
    destruct Hsel as [-> | (i & -> & Hrange)]; [contradiction Hlen; reflexivity |].
    eexists. split; [reflexivity |].
    unfold in_range in *. rewrite andb_true_iff, Z.leb_le, Z.ltb_lt in *.
    destruct (Z.eqb_spec i 0); lia.
  - unfold Flat.togglePlayPause.
    destruct Hsel as [-> | (i & Hi & Hrange)]; [split; [constructor | left; reflexivity] |].
    rewrite Hi. split; [exact Hsorted |]. right. exists i. split; [reflexivity | exact Hrange].
  - unfold Flat.playNext. destruct (Z.eqb_spec (len (Flat.playlist s)) 0) as [| Hlen];
      [split; assumption |].
    split; [exact Hsorted |]. right. simpl.
    destruct Hsel as [-> | (i & -> & Hrange)]; [contradiction Hlen; reflexivity |].
    eexists. split; [reflexivity |].
    unfold in_range in *. rewrite andb_true_iff, Z.leb_le, Z.ltb_lt in *.
    destruct (Z.eqb_spec i (len (Flat.playlist s) - 1)); lia.
  - split; [exact Hsorted |]. right. exists index. split; [reflexivity |].
    simpl in Hrendered. apply andb_true_iff in Hrendered as [_ Hrange]. exact Hrange.
  - unfold Flat.playNext. destruct (Z.eqb_spec (len (Flat.playlist s)) 0) as [| Hlen];
      [split; assumption |].
    split; [exact Hsorted |]. right. simpl.
    destruct Hsel as [-> | (i & -> & Hrange)]; [contradiction Hlen; reflexivity |].
    eexists. split; [reflexivity |].
    unfold in_range in *. rewrite andb_true_iff, Z.leb_le, Z.ltb_lt in *.
    destruct (Z.eqb_spec i (len (Flat.playlist s) - 1)); lia.
Qed.

Lemma Flat_reachable_wf (localeCompare : string -> string -> Z) (s : Flat.State) :
  ConsistentComparator localeCompare -> Flat.reachable localeCompare s ->
  StronglySorted (fun a b => by_name localeCompare a b <= 0) (Flat.playlist s)
  /\ (s = Flat.init
      \/ exists i, Flat.currentTrackIndex s = Some i /\ in_range i (Flat.playlist s) = true).
Proof.
  intros Hcons. unfold Flat.reachable. revert s.
  apply (rtc_ind_r
           (fun s =>
              StronglySorted (fun a b => by_name localeCompare a b <= 0) (Flat.playlist s)
              /\ (s = Flat.init
                  \/ exists i, Flat.currentTrackIndex s = Some i
                               /\ in_range i (Flat.playlist s) = true))).
  - split; [constructor | left; reflexivity].
  - intros s1 s2 _ (e & Hrendered & <-) IH.
    exact (Flat_dispatch_wf localeCompare e s1 Hcons IH Hrendered).
Qed.

(** X18: in every state the first revision can reach (the host's
    [localeCompare] being consistent) the playlist is sorted by name, and
    either the state is the initial one or the track index points at a
    track of the playlist. *)
Theorem Flat_reachable_sorted_selected (localeCompare : string -> string -> Z) (s : Flat.State) :
  ConsistentComparator localeCompare -> Flat.reachable localeCompare s ->
  StronglySorted (fun a b => by_name localeCompare a b <= 0) (Flat.playlist s)
  /\ (s = Flat.init \/ is_Some (Flat.currentTrack s)).
Proof.
  intros Hcons Hreach.
  destruct (Flat_reachable_wf localeCompare s Hcons Hreach) as [Hsorted Hsel].
  split; [exact Hsorted |].
  destruct Hsel as [-> | (i & Hi & Hrange)]; [left; reflexivity | right].
  unfold Flat.currentTrack. rewrite Hi. apply at_index_in_range, Hrange.
Qed.

Lemma Flat_reachable_sorted_selected_witness :
  Flat.dispatch collate (Flat.FileInput_change (Extracted [track "b.mp3"; track "a.mp3"]))
    Flat.init = Flat.init
  \/ is_Some (Flat.currentTrack
                (Flat.dispatch collate
                   (Flat.FileInput_change (Extracted [track "b.mp3"; track "a.mp3"]))
                   Flat.init)).
Proof.
  apply (Flat_reachable_sorted_selected collate _ collate_consistent).
  apply rtc_once. exists (Flat.FileInput_change (Extracted [track "b.mp3"; track "a.mp3"])).
  split; reflexivity.
Defined.

(** X19: in every state the first revision can reach, an upload without
    audio entries keeps the values of the state: the re-sorted playlist
    holds the same tracks in the same order, the track index and the
    playing flag are as they were, and nothing is reported.  (The playlist
    is all the same a new array: the handler always installs the result of
    the sort, so an effect that depends on the array runs again.) *)
Theorem Flat_empty_upload (localeCompare : string -> string -> Z) (s : Flat.State) :
  ConsistentComparator localeCompare -> Flat.reachable localeCompare s ->
  Flat.handleFileUpload localeCompare (Extracted []) s = (s, []).
Proof.
  intros Hcons Hreach.
  destruct (Flat_reachable_wf localeCompare s Hcons Hreach) as [Hsorted _].
  unfold Flat.handleFileUpload. rewrite app_nil_r.
  change (fun a b : Track => localeCompare (name a) (name b)) with (by_name localeCompare).
  rewrite (Array_sort_of_sorted _ _ Hsorted).
  destruct s as [pl [i |] playing]; reflexivity.
Qed.

Lemma Flat_empty_upload_witness :
  let two :=
    {| Flat.playlist := [track "a.mp3"; track "b.mp3"];
       Flat.currentTrackIndex := Some 0; Flat.isPlaying := false |} in
  Flat.handleFileUpload collate (Extracted []) two = (two, []).
Proof.
  cbv zeta. apply (Flat_empty_upload collate _ collate_consistent).
  apply rtc_once.
  exists (Flat.FileInput_change (Extracted [track "b.mp3"; track "a.mp3"])).
  split; reflexivity.
Defined.

(** X20: a library with its selected playlist seen as one flat playlist
    behaves as the first revision.  When the selected playlist has a track
    and nothing is queued, Next, Previous, play/pause and the choice of a
    track lead to the states the flat revision's handlers lead to. *)
Theorem flat_view_handlers (s : State) (pl : Playlist) (index : Z) :
  queue s = [] -> currentPlaylist s = Some pl -> tracks pl <> [] ->
  flat_view (playNext s) = Flat.playNext (flat_view s)
  /\ flat_view (playPrevious s) = Flat.playPrevious (flat_view s)
  /\ flat_view (togglePlayPause s) = Flat.togglePlayPause (flat_view s)
  /\ flat_view (selectTrack index s) = Flat.selectTrack index (flat_view s).
Proof.
  intros Hq Hpl Hne.
  assert ((len (tracks pl) =? 0) = false) as Hlen.
  { apply Z.eqb_neq. destruct (tracks pl); [contradiction | rewrite len_cons].
    pose proof (len_nonneg l). lia. }
  repeat split.
  - rewrite (playNext_no_queue s Hq), Hpl.
    unfold flat_view, Flat.playNext. simpl.
    change (currentPlaylist (setIsPlaying true (setCurrentTrackIndex _ s)))
      with (currentPlaylist s).
    rewrite Hpl, Hlen. reflexivity.
  - rewrite (playPrevious_in s pl Hpl).
    unfold flat_view, Flat.playPrevious. simpl.
    change (currentPlaylist (setIsPlaying true (setCurrentTrackIndex _ s)))
      with (currentPlaylist s).
    rewrite Hpl, Hlen. reflexivity.
  - unfold togglePlayPause, Flat.togglePlayPause, flat_view. simpl.
    destruct (currentTrackIndex s) eqn:Ht; simpl; rewrite Ht; reflexivity.
Qed.

Lemma flat_view_handlers_witness :
  flat_view (playNext loaded) = Flat.playNext (flat_view loaded).
Proof.
  apply (flat_view_handlers loaded playlistA 0 eq_refl eq_refl). discriminate.
Defined.

(** ** The names of the extracted tracks *)

Lemma lower_ascii_slash (c : ascii) : Ascii.eqb (lower_ascii c) "/" = Ascii.eqb c "/".
Proof. destruct c as [[] [] [] [] [] [] [] []]; reflexivity. Qed.

Lemma has_slash_lower (s : string) : has_slash (lower s) = has_slash s.
Proof.
  induction s as [| c s IH]; simpl; [reflexivity |].
  rewrite lower_ascii_slash, IH. reflexivity.
Qed.

Lemma split_pop_suffix (s : string) : exists dir, s = (dir ++ split_pop s)%string.
Proof.
  induction s as [| c s [dir IH]]; simpl; [exists ""%string; reflexivity |].
  destruct (has_slash s).
  - exists (String c dir). simpl. congruence.
  - destruct (Ascii.eqb c "/"); [exists (String c ""); reflexivity | exists ""%string; reflexivity].
Qed.

Lemma split_pop_no_slash (s : string) : has_slash (split_pop s) = false.
Proof.
  induction s as [| c s IH]; simpl; [reflexivity |].
  destruct (has_slash s) eqn:Hs; [exact IH |].
  destruct (Ascii.eqb c "/") eqn:Hc; [exact Hs |].
  simpl. rewrite Hc, Hs. reflexivity.
Qed.

Lemma endsWith_split_pop (s ext : string) :
  ext <> ""%string -> has_slash ext = false ->
  endsWith (lower s) ext = true ->
  endsWith (lower (split_pop s)) ext = true /\ split_pop s <> ""%string.
Proof.
  intros Hne Hext. induction s as [| c s IH]; intros Hends.
  - destruct ext; [contradiction | discriminate Hends].
  - assert (String.eqb (lower (String c s)) ext = true ->
            has_slash (String c s) = false) as Hwhole.
    { intros Heq. apply String.eqb_eq in Heq.
      rewrite <- (has_slash_lower (String c s)), Heq. exact Hext. }
    cbn [lower endsWith] in Hends. apply orb_true_iff in Hends.
    cbn [split_pop]. destruct (has_slash s) eqn:Hs.
    + apply IH. destruct Hends as [Heq | Hends]; [| exact Hends].
      apply Hwhole in Heq. simpl in Heq. rewrite Hs, orb_true_r in Heq. discriminate.
    + destruct (Ascii.eqb c "/") eqn:Hc.
      * destruct Hends as [Heq | Hends].
        -- apply Hwhole in Heq. simpl in Heq. rewrite Hc in Heq. discriminate.
        -- split; [exact Hends |]. intros ->.
           destruct ext; [contradiction | discriminate Hends].
      * split; [| discriminate].
        cbn [lower endsWith]. apply orb_true_iff. exact Hends.
Qed.

(** X21: for an archive entry that passes the audio test (it is not a
    directory and its lower-cased name ends with one of the five
    extensions), the name given to the track is what follows the last ['/']
    of the entry's name: it is not empty, contains no ['/'], is a tail of
    the entry's name, and still passes the audio test.  A directory never
    passes. *)
Theorem trackName_is_base_name (dir : bool) (filename : string) :
  isAudioEntry dir filename = true ->
  dir = false
  /\ trackName filename = split_pop filename
  /\ trackName filename <> ""%string
  /\ has_slash (trackName filename) = false
  /\ (exists folder, filename = (folder ++ trackName filename)%string)
  /\ isAudioEntry false (trackName filename) = true.
Proof.
  unfold isAudioEntry. intros Haudio. apply andb_true_iff in Haudio as [Hdir Hext].
  split; [destruct dir; [discriminate | reflexivity] |].
  apply existsb_exists in Hext as (ext & Hin & Hends).
  assert (ext <> ""%string /\ has_slash ext = false) as [Hne Hslash].
  { simpl in Hin. destruct Hin as [<- | [<- | [<- | [<- | [<- | []]]]]];
      (split; [discriminate | reflexivity]). }
  destruct (endsWith_split_pop filename ext Hne Hslash Hends) as [Hends' Hpop].
  assert (trackName filename = split_pop filename) as Hname.
  { unfold trackName. destruct (String.eqb_spec (split_pop filename) ""); [contradiction | reflexivity]. }
  rewrite Hname. repeat split.
  - exact Hpop.
  - apply split_pop_no_slash.
  - apply split_pop_suffix.
  - simpl negb. rewrite andb_true_l. apply existsb_exists. exists ext. split; assumption.
Qed.

Lemma trackName_is_base_name_witness :
  trackName "Album/CD1/01 Intro.MP3" = "01 Intro.MP3"%string.
Proof.
  destruct (trackName_is_base_name false "Album/CD1/01 Intro.MP3" eq_refl) as (_ & Hname & _).
  rewrite Hname. reflexivity.
Defined.

(** ** Choosing a playlist from the selector *)

(** X22: in a state the player can reach, choosing an item of the playlist
    selector either names the current playlist, and then nothing changes
    (the track index is kept, the status is not forced to playing), or
    names another playlist, and then that playlist is shown with its first
    track, which exists, as the current track and the status playing.  The
    library and the queue are the same in both cases. *)
Theorem Select_change_first_track
    (localeCompare : string -> string -> Z) (s : State) (index : Z) :
  reachable localeCompare s -> rendered (Select_change index) s = true ->
  let s' := handlePlaylistChange index s in
  (currentPlaylistIndex s = Some index -> s' = s)
  /\ (currentPlaylistIndex s <> Some index ->
      exists pl t,
        at_index (playlists s) index = Some pl /\ at_index (tracks pl) 0 = Some t
        /\ currentPlaylist s' = Some pl /\ currentTrack s' = Some t
        /\ currentTrackIndex s' = Some 0 /\ isPlaying s' = true)
  /\ playlists s' = playlists s
  /\ queue s' = queue s.
Proof.
  intros Hreach Hrendered. cbv zeta.
  destruct (reachable_player_wf localeCompare s Hreach) as (Hlib & _ & _).
  simpl in Hrendered. apply andb_true_iff in Hrendered as [_ Hrange].
  apply at_index_in_range in Hrange as [pl Hpl].
  assert (tracks pl <> []) as Hne.
  { unfold at_index in Hpl. destruct (index <? 0); [discriminate |].
    exact (Forall_lookup_1 _ _ _ _ Hlib Hpl). }
  destruct (at_index_first (tracks pl) Hne) as [t Ht].
  unfold handlePlaylistChange.
  destruct (bool_decide_reflect (Some index = currentPlaylistIndex s)) as [Heq | Hneq]; simpl.
  - repeat split. intros Hother. congruence.
  - split; [intros Hsame; congruence |]. split; [| split; reflexivity].
    intros _. exists pl, t. unfold currentTrack, currentPlaylist. simpl.
    rewrite Hpl. repeat split; assumption.
Qed.

Lemma Select_change_first_track_witness :
  let two :=
    (handleFileUpload collate "b.zip" (Extracted [track "u2.mp3"; track "u1.mp3"]) loaded).1 in
  currentTrack (handlePlaylistChange 1 two) = Some (track "u1.mp3").
Proof.
  cbv zeta.
  set (two := (handleFileUpload collate "b.zip"
                 (Extracted [track "u2.mp3"; track "u1.mp3"]) loaded).1).
  assert (reachable collate two) as Hreach.
  { eapply rtc_r; [apply loaded_reachable |].
    exists (FileInput_change "b.zip" (Extracted [track "u2.mp3"; track "u1.mp3"])).
    split; reflexivity. }
  destruct (Select_change_first_track collate two 1 Hreach eq_refl) as (_ & Hother & _).
  destruct Hother as (pl & t & Hpl & Ht & _ & Htrack & _); [discriminate |].
  rewrite Htrack. injection Hpl as <-. injection Ht as <-. reflexivity.
Defined.
